(** * PrintableBinary: the codec engine of [printable_binary.c]

    A shallow embedding of the table builder ([init_tables]), the encoder
    ([encode_data]), the decoder ([decode_data]), the formatter
    ([format_output]) and the sanitizer ([clean_decode_input]), followed by
    the properties of the codec.

    Conventions of the embedding.
    - A [uint8_t] or [char] object is a [Byte.byte]; [Zb] reads it as the
      unsigned value in [0,255] and [u8] is the conversion of an [int] to
      [uint8_t] (reduction modulo 256).
    - C integers are [Z].  [int] arithmetic that can leave the range of
      [int] is wrapped to 32 bits ([wrap_int]), which is what the usual
      targets compute where C leaves signed overflow undefined;
      [uint16_t] results are reduced modulo 65536.  A [size_t] quantity is a non-negative [Z]
      that is never wrapped: every [size_t] value below is bounded by a
      small multiple of the size of a buffer held in memory.
    - An array is a list, read with [idx] and written with [store];
      [calloc] is [replicate] of the zero object.  The two arrays of
      [DECODE_MAP_SIZE] entries, which [calloc] zeroes and the builder
      writes at 256 indices at most, are finite maps from the indices
      written to the values written; [load] reads them, and an index
      never written reads as zero.
    - [malloc] and [calloc] are taken to succeed; [exit], a division by
      zero and running out of fuel are outcomes of their own. *)

From Stdlib Require Import ZArith List Bool Lia.
From Stdlib.Strings Require Import Byte.
From stdpp Require Import base numbers option list gmap.
Import ListNotations.

Local Open Scope Z_scope.

(** ** Bytes and machine integers *)

Abbreviation byte := Byte.byte.

Definition Zb (b : byte) : Z := Z.of_N (Byte.to_N b).

Definition u8 (z : Z) : byte :=
  match Byte.of_N (Z.to_N (z mod 256)) with
  | Some b => b
  | None => x00
  end.

Definition u16 (z : Z) : Z := z mod 65536.

Definition wrap_int (z : Z) : Z := (z + 2147483648) mod 4294967296 - 2147483648.

(** [int] to [size_t]: the value modulo 2^64. *)
Definition size_of_int (z : Z) : Z := z mod 18446744073709551616.

(** [a[k]] for an index the program keeps in range; a read out of range
    has no defined value in C and yields the zero object here. *)
Definition idx {A : Type} (zero : A) (a : list A) (k : Z) : A :=
  if k <? 0 then zero else default zero (a !! Z.to_nat k).

Definition store {A : Type} (a : list A) (k : Z) (v : A) : list A :=
  if k <? 0 then a else <[Z.to_nat k := v]> a.

(** [a[k]] in an array that [calloc] has zeroed and that is kept as the
    map of the entries written since. *)
Definition load {A : Type} (zero : A) (a : gmap Z A) (k : Z) : A :=
  default zero (a !! k).

(** ** Outcomes of a call *)

Inductive outcome (A : Type) : Type :=
| Returns (a : A)
| Exits (status : Z)
| Traps
| OutOfFuel.
Arguments Returns {A} a.
Arguments Exits {A} status.
Arguments Traps {A}.
Arguments OutOfFuel {A}.

(** Sequencing stops at the first outcome that is not a return. *)
#[global] Instance outcome_bind : MBind outcome := fun A B k m =>
  match m with
  | Returns a => k a
  | Exits s => Exits s
  | Traps => Traps
  | OutOfFuel => OutOfFuel
  end.

(** ** Constants and structures *)

Definition MAX_UTF8_BYTES : Z := 4.
Definition DECODE_MAP_SIZE : Z := 65536.
Definition INITIAL_BUFFER_SIZE : Z := 8192.

(** [utf8_sequence_t]: the fields [bytes] and [length]. *)
Record utf8_sequence_t : Type := {
  utf8_bytes : list byte;
  utf8_length : Z
}.

(** [buffer_t]: [buf_data] holds the [size] bytes written so far, so the
    field [size] is the length of [buf_data]. *)
Record buffer_t : Type := {
  buf_data : list byte;
  buf_capacity : Z
}.

Definition buf_size (buf : buffer_t) : Z := Z.of_nat (length (buf_data buf)).

Definition buffer_init (capacity : Z) : buffer_t :=
  let capacity := if capacity =? 0 then INITIAL_BUFFER_SIZE else capacity in
  {| buf_data := []; buf_capacity := capacity |}.

(** [buffer_append buf data] appends the [len] bytes of [data]. *)
Definition buffer_append (buf : buffer_t) (data : list byte) : outcome buffer_t :=
  let len := Z.of_nat (length data) in
  if buf_size buf + len >? buf_capacity buf then Exits 1
  else Returns {| buf_data := buf_data buf ++ data;
                  buf_capacity := buf_capacity buf |}.

Definition buffer_append_char (buf : buffer_t) (c : byte) : outcome buffer_t :=
  buffer_append buf [c].

(** ** Table construction *)

(** [strlen] of a NUL-terminated array. *)
Fixpoint strlen (s : list byte) : Z :=
  match s with
  | [] => 0
  | c :: s' => if Zb c =? 0 then 0 else 1 + strlen s'
  end.

Definition memcpy (dst src : list byte) (n : Z) : list byte :=
  take (Z.to_nat n) src ++ drop (Z.to_nat n) dst.

Definition make_utf8 (bytes : list byte) : utf8_sequence_t :=
  let len := Zb (u8 (strlen bytes)) in
  {| utf8_bytes := memcpy (replicate (Z.to_nat MAX_UTF8_BYTES) x00) bytes len;
     utf8_length := len |}.

Definition utf8_hash (bytes : list byte) (len : Z) : Z :=
  if len =? 1 then
    u16 (Zb (idx x00 bytes 0))
  else if len =? 2 then
    u16 (Z.lor (Z.shiftl (Zb (idx x00 bytes 0)) 8) (Zb (idx x00 bytes 1)))
  else if len =? 3 then
    u16 (Z.lor (Z.lor (Z.shiftl (Z.land (Zb (idx x00 bytes 0)) 15) 12)
                      (Z.shiftl (Z.land (Zb (idx x00 bytes 1)) 63) 6))
               (Z.land (Zb (idx x00 bytes 2)) 63))
  else 0.

(** The assignments [special_sequences[i] = "..."] in source order; each
    string literal carries its terminating NUL. *)
Definition special_assignments : list (Z * list byte) :=
  [ (0, [xe2; x88; x85; x00]);
    (1, [xc2; xaf; x00]);
    (2, [xc2; xab; x00]);
    (3, [xc2; xbb; x00]);
    (4, [xcf; x9e; x00]);
    (5, [xc2; xbf; x00]);
    (6, [xc2; xa1; x00]);
    (7, [xc2; xaa; x00]);
    (8, [xe2; x8c; xab; x00]);
    (9, [xe2; x87; xa5; x00]);
    (10, [xe2; x87; xa9; x00]);
    (11, [xe2; x8a; xa7; x00]);
    (12, [xc2; xa7; x00]);
    (13, [xe2; x8f; x8e; x00]);
    (14, [xc8; xaf; x00]);
    (15, [xca; x98; x00]);
    (16, [xc6; x94; x00]);
    (17, [xc2; xb9; x00]);
    (18, [xc2; xb2; x00]);
    (19, [xc2; xba; x00]);
    (20, [xc2; xb3; x00]);
    (21, [xc2; xb5; x00]);
    (22, [xc9; xa8; x00]);
    (23, [xc2; xac; x00]);
    (24, [xc2; xa9; x00]);
    (25, [xc2; xa6; x00]);
    (26, [xc6; xb5; x00]);
    (27, [xe2; x8e; x8b; x00]);
    (28, [xce; x9e; x00]);
    (29, [xc7; x81; x00]);
    (30, [xc7; x80; x00]);
    (31, [xc2; xb6; x00]);
    (32, [xe2; x90; xa3; x00]);
    (33, [xef; xb9; x97; x00]);
    (34, [xcb; xb5; x00]);
    (35, [xe2; x99; xaf; x00]);
    (36, [xef; xb9; xa9; x00]);
    (37, [xef; xb9; xaa; x00]);
    (38, [xef; xb9; xa0; x00]);
    (39, [xca; xbc; x00]);
    (40, [xe2; x9d; xa8; x00]);
    (41, [xe2; x9d; xa9; x00]);
    (42, [xef; xb9; xa1; x00]);
    (43, [xef; xb9; xa2; x00]);
    (45, [xef; xb9; xa3; x00]);
    (47, [xe2; x81; x84; x00]);
    (58, [xef; xb9; x95; x00]);
    (59, [xef; xb9; x94; x00]);
    (61, [xef; xb9; xa6; x00]);
    (63, [xef; xb9; x96; x00]);
    (64, [xef; xb9; xab; x00]);
    (91, [xe2; x9f; xa6; x00]);
    (92, [xe2; xa7; xb9; x00]);
    (93, [xe2; x9f; xa7; x00]);
    (96, [xcb; x8b; x00]);
    (123, [xe2; x9d; xb4; x00]);
    (124, [xe2; x88; xa3; x00]);
    (125, [xe2; x9d; xb5; x00]);
    (126, [xcb; x9c; x00]);
    (127, [xe2; x8c; xa6; x00]);
    (152, [xc5; x8c; x00]);
    (184, [xc5; x8f; x00]) ].

(** [const char *special_sequences[256] = {0}] followed by the
    assignments: [None] is the null pointer. *)
Definition special_sequences : list (option (list byte)) :=
  fold_left (fun a '(i, s) => store a i (Some s))
            special_assignments (replicate 256 None).

(** The tables are globals of the program; they are passed explicitly. *)
Record tables : Type := {
  encode_table : list utf8_sequence_t;
  decode_table : gmap Z byte;
  decode_table_valid : gmap Z bool
}.

Definition zero_sequence : utf8_sequence_t :=
  {| utf8_bytes := replicate (Z.to_nat MAX_UTF8_BYTES) x00; utf8_length := 0 |}.

(** One iteration of the loop that builds the encoding table.  The
    branch [None] is the [else] of [if (special_sequences[i])], where
    the conjunct [!special_sequences[i]] of the next test holds. *)
Definition build_encode_entry (encode_table : list utf8_sequence_t) (i : Z)
  : list utf8_sequence_t :=
  match idx None special_sequences i with
  | Some s => store encode_table i (make_utf8 s)
  | None =>
    if (i >=? 33) && (i <=? 126) then
      store encode_table i (make_utf8 [u8 i; u8 0])
    else if (i >=? 128) && (i <? 192) && negb (i =? 152) && negb (i =? 184) then
      store encode_table i (make_utf8 [u8 195; u8 i; u8 0])
    else if (i >=? 192) && negb (i =? 184) then
      store encode_table i (make_utf8 [u8 196; u8 (i - 192 + 128); u8 0])
    else encode_table
  end.

(** One iteration of the loop that builds the decoding table. *)
Definition build_decode_entry (encode_table : list utf8_sequence_t)
    (d : gmap Z byte * gmap Z bool) (i : Z) : gmap Z byte * gmap Z bool :=
  let e := idx zero_sequence encode_table i in
  if utf8_length e >? 0 then
    let hash := utf8_hash (utf8_bytes e) (utf8_length e) in
    (<[hash := u8 i]> (fst d), <[hash := true]> (snd d))
  else d.

Definition init_tables : tables :=
  let encode_table :=
    fold_left build_encode_entry (seqZ 0 256) (replicate 256 zero_sequence) in
  let d :=
    fold_left (build_decode_entry encode_table) (seqZ 0 256) (∅, ∅) in
  {| encode_table := encode_table;
     decode_table := fst d;
     decode_table_valid := snd d |}.

Definition utf8_sequence_length (first_byte : byte) : Z :=
  if Zb first_byte <? 128 then 1
  else if Zb first_byte <? 224 then 2
  else if Zb first_byte <? 240 then 3
  else 4.

(** ** Encoder, decoder, formatter and sanitizer *)

Section Codec.

(** The tables the functions read; the program reads the globals that
    [init_tables] has filled. *)
Variable T : tables.

(** The body of the encoding loop for the input byte [c]. *)
Definition encode_byte (output : buffer_t) (c : byte) : outcome buffer_t :=
  let seq := idx zero_sequence (encode_table T) (Zb c) in
  if utf8_length seq >? 0 then
    buffer_append output (take (Z.to_nat (utf8_length seq)) (utf8_bytes seq))
  else Returns output.

(** [for (i = 0; i < input_len; i++)] over [input[i]]. *)
Fixpoint encode_loop (input : list byte) (output : buffer_t) : outcome buffer_t :=
  match input with
  | [] => Returns output
  | c :: rest => output' ← encode_byte output c; encode_loop rest output'
  end.

Definition encode_data (input : list byte) : outcome buffer_t :=
  let input_len := Z.of_nat (length input) in
  encode_loop input (buffer_init (input_len * 3)).

(** The loop [for (len = seq_len; len >= 1 && len <= 3; len--)] of the
    decoder at position [i], started at [len]: the decoded byte and the
    matched length, or [None] when the loop ends with [matched] false. *)
Fixpoint match_lengths (input : list byte) (i : Z) (len : nat) : option (byte * Z) :=
  match len with
  | O => None
  | S len' =>
    if Z.of_nat len <=? 3 then
      if i + Z.of_nat len <=? Z.of_nat (length input) then
        let hash := utf8_hash (drop (Z.to_nat i) input) (Z.of_nat len) in
        if load false (decode_table_valid T) hash then
          Some (load x00 (decode_table T) hash, Z.of_nat len)
        else match_lengths input i len'
      else match_lengths input i len'
    else None
  end.

(** The length the decoder starts from at position [i]: the estimate
    from the first byte, cut to what is left of the input. *)
Definition clamped_length (input : list byte) (i : Z) : Z :=
  let input_len := Z.of_nat (length input) in
  let seq_len := utf8_sequence_length (idx x00 input i) in
  if i + seq_len >? input_len then Zb (u8 (input_len - i)) else seq_len.

(** [while (i < input_len)]; one unit of fuel per iteration. *)
Fixpoint decode_loop (fuel : nat) (input : list byte) (i : Z) (output : buffer_t)
  : outcome buffer_t :=
  if i <? Z.of_nat (length input) then
    match fuel with
    | O => OutOfFuel
    | S fuel' =>
      let seq_len := clamped_length input i in
      match match_lengths input i (Z.to_nat seq_len) with
      | Some (decoded_byte, len) =>
        output' ← buffer_append_char output decoded_byte;
        decode_loop fuel' input (i + len) output'
      | None => decode_loop fuel' input (i + 1) output
      end
    end
  else Returns output.

(** Every iteration advances [i] by at least one, so [input_len]
    units of fuel are enough ([decode_loop_returns]); more fuel does
    not change the result ([decode_loop_more_fuel]). *)
Definition decode_data (input : list byte) : outcome buffer_t :=
  let input_len := Z.of_nat (length input) in
  decode_loop (length input) input 0 (buffer_init input_len).

End Codec.

(** Division and remainder on [size_t]; a zero divisor traps. *)
Definition size_div (a b : Z) : outcome Z :=
  if b =? 0 then Traps else Returns (a / b).

Definition size_rem (a b : Z) : outcome Z :=
  if b =? 0 then Traps else Returns (a mod b).

(** [for (j = 0; j < char_len && i + j < input->size; j++)], with
    [left] = [char_len - j] iterations to go. *)
Fixpoint copy_character (input : list byte) (i j : Z) (left : nat) (output : buffer_t)
  : outcome buffer_t :=
  match left with
  | O => Returns output
  | S left' =>
    if i + j <? Z.of_nat (length input) then
      output' ← buffer_append_char output (idx x00 input (i + j));
      copy_character input i (j + 1) left' output'
    else Returns output
  end.

(** The block under [// Add spacing], after [char_count] and [i] have
    been advanced. *)
Definition add_spacing (input : list byte) (group_size groups_per_line : Z)
    (char_count i : Z) (output : buffer_t) : outcome buffer_t :=
  let size := Z.of_nat (length input) in
  r ← size_rem char_count (size_of_int group_size);
  if (r =? 0) && (i <? size) then
    output' ← buffer_append_char output x20;
    q ← size_div char_count (size_of_int group_size);
    r' ← size_rem q (size_of_int groups_per_line);
    if (r' =? 0) && (i <? size) then buffer_append_char output' x0a
    else Returns output'
  else Returns output.

Fixpoint format_loop (fuel : nat) (input : list byte) (group_size groups_per_line : Z)
    (char_count i : Z) (output : buffer_t) : outcome buffer_t :=
  if i <? Z.of_nat (length input) then
    match fuel with
    | O => OutOfFuel
    | S fuel' =>
      let char_len := utf8_sequence_length (idx x00 input i) in
      output1 ← copy_character input i 0 (Z.to_nat char_len) output;
      let char_count := char_count + 1 in
      let i := i + char_len in
      output2 ← add_spacing input group_size groups_per_line char_count i output1;
      format_loop fuel' input group_size groups_per_line char_count i output2
    end
  else Returns output.

(** [group_size * groups_per_line] is a product of two [int]s. *)
Definition format_output (input : buffer_t) (group_size groups_per_line : Z)
  : outcome buffer_t :=
  let size := buf_size input in
  q1 ← size_div size (size_of_int group_size);
  q2 ← size_div size (size_of_int (wrap_int (group_size * groups_per_line)));
  let estimated_size := size + q1 + q2 in
  format_loop (length (buf_data input)) (buf_data input) group_size groups_per_line
              0 0 (buffer_init estimated_size).

Definition is_whitespace (c : byte) : bool :=
  (Zb c =? 32) || (Zb c =? 9) || (Zb c =? 10) || (Zb c =? 13).

Fixpoint clean_loop (input : list byte) (output : buffer_t) : outcome buffer_t :=
  match input with
  | [] => Returns output
  | c :: rest =>
    if negb (is_whitespace c) then
      output' ← buffer_append_char output c; clean_loop rest output'
    else clean_loop rest output
  end.

Definition clean_decode_input (input : buffer_t) : outcome buffer_t :=
  clean_loop (buf_data input) (buffer_init (buf_size input)).

(** The pipeline of [main]: encode, format; and, in decode mode, clean
    and decode. *)
Definition encode_formatted (T : tables) (input : list byte)
    (group_size groups_per_line : Z) : outcome buffer_t :=
  encoded ← encode_data T input;
  format_output encoded group_size groups_per_line.

Definition clean_and_decode (T : tables) (input : buffer_t) : outcome buffer_t :=
  cleaned ← clean_decode_input input;
  decode_data T (buf_data cleaned).

(** ** Reading the input *)

(** One iteration of the loop of [read_file], for the [bytes_read] bytes
    [temp] that [fread] has delivered: the buffer grows when
    [buf.size + bytes_read >= buf.capacity], then the bytes are appended
    by hand.  [realloc] is taken to succeed; a [memcpy] that would write
    past the capacity has no defined behaviour and traps. *)
Definition read_chunk (buf : buffer_t) (temp : list byte) : outcome buffer_t :=
  let bytes_read := Z.of_nat (length temp) in
  let capacity :=
    if buf_size buf + bytes_read >=? buf_capacity buf
    then (buf_size buf + bytes_read) * 2
    else buf_capacity buf in
  if buf_size buf + bytes_read >? capacity then Traps
  else Returns {| buf_data := buf_data buf ++ temp; buf_capacity := capacity |}.

(** [while ((bytes_read = fread(temp, 1, sizeof(temp), file)) > 0)]:
    [chunks] are the successive results of [fread]; the loop ends at the
    first empty one, or when there is none left. *)
Fixpoint read_loop (chunks : list (list byte)) (buf : buffer_t) : outcome buffer_t :=
  match chunks with
  | [] => Returns buf
  | temp :: chunks' =>
    if Z.of_nat (length temp) >? 0 then
      buf' ← read_chunk buf temp; read_loop chunks' buf'
    else Returns buf
  end.

(** [initial_capacity] is [INITIAL_BUFFER_SIZE], or the size that [stat]
    reports for a named file when it is positive; the file is taken to
    open. *)
Definition read_file (initial_capacity : Z) (chunks : list (list byte))
  : outcome buffer_t :=
  read_loop chunks (buffer_init initial_capacity).

(** * Notions used in the statements

    The definitions below are not code of the program: they name what
    the statements speak about (the sequence of a byte, the encoding of
    a buffer, the formatted text, the assignment rules as the
    specification lists them). *)

(** A buffer is well formed when its size does not exceed its capacity. *)
Definition buffer_wf (buf : buffer_t) : Prop := buf_size buf <= buf_capacity buf.

(** [encode_table[b]] and the [length] bytes of it that the encoder
    emits. *)
Definition entry (T : tables) (b : byte) : utf8_sequence_t :=
  idx zero_sequence (encode_table T) (Zb b).

Definition sequence_of (T : tables) (b : byte) : list byte :=
  take (Z.to_nat (utf8_length (entry T b))) (utf8_bytes (entry T b)).

Definition encoding (T : tables) (B : list byte) : list byte :=
  flat_map (sequence_of T) B.

(** What the proofs below need from a pair of tables. *)
Record table_ok (T : tables) : Prop := {
  entry_length : forall b, 1 <= utf8_length (entry T b) <= 3;
  entry_bytes : forall b, length (utf8_bytes (entry T b)) = 4%nat;
  entry_lead : forall b,
    utf8_sequence_length (idx x00 (utf8_bytes (entry T b)) 0) = utf8_length (entry T b);
  entry_valid : forall b,
    load false (decode_table_valid T)
        (utf8_hash (utf8_bytes (entry T b)) (utf8_length (entry T b))) = true;
  entry_decoded : forall b,
    load x00 (decode_table T)
        (utf8_hash (utf8_bytes (entry T b)) (utf8_length (entry T b))) = b;
  entry_no_space : forall b,
    forallb (fun c => negb (is_whitespace c)) (sequence_of T b) = true
}.

(** The largest [int]; [group_size] and [groups_per_line] are [int]s. *)
Definition INT_MAX : Z := 2147483647.

(** What follows unit number [char_count]: nothing, a space, or a space
    and a line feed; [more] tells whether input is left after the unit. *)
Definition separator (group_size groups_per_line char_count : Z) (more : bool)
  : list byte :=
  if (char_count mod group_size =? 0) && more then
    if ((char_count / group_size) mod groups_per_line =? 0) && more
    then [x20; x0a] else [x20]
  else [].

Definition nonempty {A : Type} (l : list A) : bool :=
  match l with [] => false | _ :: _ => true end.

(** The sequences of [B], each one whole and followed by its separator;
    [char_count] units come before. *)
Fixpoint formatted (T : tables) (group_size groups_per_line char_count : Z)
    (B : list byte) : list byte :=
  match B with
  | [] => []
  | b :: B' =>
    sequence_of T b ++
    separator group_size groups_per_line (char_count + 1) (nonempty B') ++
    formatted T group_size groups_per_line (char_count + 1) B'
  end.

(** The bytes the sanitizer keeps. *)
Definition printable (c : byte) : bool := negb (is_whitespace c).

(** The four assignment rules of the specification. *)
Inductive rule : Type := Curated | AsciiIdentity | PrefixC3 | PrefixC4.

Definition curated (i : Z) : bool :=
  match idx None special_sequences i with Some _ => true | None => false end.

(** The categories in priority order: a curated override first, then the
    three ranges for the values without one. *)
Definition covered_by (r : rule) (b : byte) : bool :=
  let i := Zb b in
  match r with
  | Curated => curated i
  | AsciiIdentity => negb (curated i) && (33 <=? i) && (i <=? 126)
  | PrefixC3 => negb (curated i) && (128 <=? i) && (i <=? 191)
  | PrefixC4 => negb (curated i) && (192 <=? i) && (i <=? 255)
  end.

(** The bytes of a string up to its NUL. *)
Definition string_bytes (s : list byte) : list byte := take (Z.to_nat (strlen s)) s.

(** The sequence a rule gives to a byte value. *)
Definition rule_sequence (r : rule) (b : byte) : list byte :=
  let i := Zb b in
  match r with
  | Curated => string_bytes (default [] (idx None special_sequences i))
  | AsciiIdentity => [b]
  | PrefixC3 => [xc3; b]
  | PrefixC4 => [xc4; u8 (i - 192 + 128)]
  end.

(** The rule a byte value falls under. *)
Definition rule_of (b : byte) : rule :=
  let i := Zb b in
  if curated i then Curated
  else if i <=? 126 then AsciiIdentity
  else if i <=? 191 then PrefixC3
  else PrefixC4.

(** One lookup of the [len] bytes at position [i] in the inverse map. *)
Definition lookup_at (T : tables) (input : list byte) (i len : Z) : option (byte * Z) :=
  if i + len <=? Z.of_nat (length input) then
    let hash := utf8_hash (drop (Z.to_nat i) input) len in
    if load false (decode_table_valid T) hash then
      Some (load x00 (decode_table T) hash, len)
    else None
  else None.

Definition or_else {A : Type} (a b : option A) : option A :=
  match a with Some _ => a | None => b end.

Definition is_separator (sep : list byte) : Prop :=
  sep = [] \/ sep = [x20] \/ sep = [x20; x0a].

(** [at_boundaries T B text]: [text] is the sequence of each byte of [B],
    whole and in order, each followed by nothing or by a separator. *)
Inductive at_boundaries (T : tables) : list byte -> list byte -> Prop :=
| boundaries_nil : at_boundaries T [] []
| boundaries_cons (b : byte) (B sep text : list byte) :
    is_separator sep ->
    at_boundaries T B text ->
    at_boundaries T (b :: B) (sequence_of T b ++ sep ++ text).

(** The 256 byte values. *)
Definition all_bytes : list byte := map u8 (seqZ 0 256).

Fixpoint bytes_eqb (l1 l2 : list byte) : bool :=
  match l1, l2 with
  | [], [] => true
  | a :: l1', b :: l2' => (Zb a =? Zb b) && bytes_eqb l1' l2'
  | _, _ => false
  end.

(** The conditions of [table_ok] for one byte, as a test. *)
Definition table_check (T : tables) (b : byte) : bool :=
  let e := entry T b in
  let hash := utf8_hash (utf8_bytes e) (utf8_length e) in
  (1 <=? utf8_length e) && (utf8_length e <=? 3)
  && Nat.eqb (length (utf8_bytes e)) 4
  && (utf8_sequence_length (idx x00 (utf8_bytes e) 0) =? utf8_length e)
  && load false (decode_table_valid T) hash
  && (Zb (load x00 (decode_table T) hash) =? Zb b)
  && forallb (fun c => negb (is_whitespace c)) (sequence_of T b).

(** The decode arrays when the loop that builds them is about to run
    its iteration [k]. *)
Definition decode_state_before (k : Z) : gmap Z byte * gmap Z bool :=
  fold_left (build_decode_entry (encode_table init_tables)) (seqZ 0 k) (∅, ∅).

(** Iteration [Zb b] of that loop writes a slot that is not yet valid. *)
Definition fresh_check (b : byte) : bool :=
  let e := entry init_tables b in
  negb (load false (snd (decode_state_before (Zb b)))
             (utf8_hash (utf8_bytes e) (utf8_length e))).

Definition rule_eqb (r1 r2 : rule) : bool :=
  match r1, r2 with
  | Curated, Curated | AsciiIdentity, AsciiIdentity
  | PrefixC3, PrefixC3 | PrefixC4, PrefixC4 => true
  | _, _ => false
  end.

(** [rule_of b] covers [b], no other rule does, and it gives the
    sequence of [b] in the table [T]. *)
Definition rule_check (T : tables) (b : byte) : bool :=
  covered_by (rule_of b) b
  && forallb (fun r => implb (covered_by r b) (rule_eqb r (rule_of b)))
             [Curated; AsciiIdentity; PrefixC3; PrefixC4]
  && bytes_eqb (sequence_of T b) (rule_sequence (rule_of b) b).

(** ** Notions of the further properties *)

(** The bytes the decoding loop emits from position [i] on: the loop of
    [decode_data] without its output buffer. *)
Fixpoint decoded (T : tables) (fuel : nat) (input : list byte) (i : Z) : list byte :=
  if i <? Z.of_nat (length input) then
    match fuel with
    | O => []
    | S fuel' =>
      match match_lengths T input i (Z.to_nat (clamped_length input i)) with
      | Some (d, len) => d :: decoded T fuel' input (i + len)
      | None => decoded T fuel' input (i + 1)
      end
    end
  else [].

(** The bytes the formatting loop emits from position [i] on, for any
    input: the loop of [format_output] without its output buffer. *)
Fixpoint format_text (fuel : nat) (input : list byte) (g n cc i : Z) : list byte :=
  if i <? Z.of_nat (length input) then
    match fuel with
    | O => []
    | S fuel' =>
      let char_len := utf8_sequence_length (idx x00 input i) in
      take (Z.to_nat char_len) (drop (Z.to_nat i) input)
      ++ separator g n (cc + 1) (i + char_len <? Z.of_nat (length input))
      ++ format_text fuel' input g n (cc + 1) (i + char_len)
    end
  else [].

(** The chunks that [read_file] consumes: those before the first empty
    one. *)
Fixpoint chunks_read (chunks : list (list byte)) : list (list byte) :=
  match chunks with
  | [] => []
  | temp :: chunks' => if nonempty temp then temp :: chunks_read chunks' else []
  end.

Definition continuation (c : byte) : bool := (128 <=? Zb c) && (Zb c <=? 191).

(** One character in well-formed UTF-8 of at most three bytes (the
    Unicode standard, table 3-7): no overlong form and no surrogate. *)
Definition utf8_char (s : list byte) : bool :=
  match s with
  | [a] => Zb a <? 128
  | [a; b] => (194 <=? Zb a) && (Zb a <=? 223) && continuation b
  | [a; b; c] =>
    (((Zb a =? 224) && (160 <=? Zb b) && (Zb b <=? 191))
     || ((225 <=? Zb a) && (Zb a <=? 236) && continuation b)
     || ((Zb a =? 237) && (128 <=? Zb b) && (Zb b <=? 159))
     || ((238 <=? Zb a) && (Zb a <=? 239) && continuation b))
    && continuation c
  | _ => false
  end.

(** A byte that is neither a control character, nor the space, nor the
    delete character. *)
Definition visible (c : byte) : bool := (33 <=? Zb c) && negb (Zb c =? 127).

(** The bytes of the buffer a call returns. *)
Definition returned_data (r : outcome buffer_t) : option (list byte) :=
  match r with Returns buf => Some (buf_data buf) | _ => None end.

(** For a byte below 0x80: it is a key of the inverse map exactly when
    the ASCII identity rule covers it, and then it decodes to itself. *)
Definition ascii_check (T : tables) (c : byte) : bool :=
  implb (Zb c <? 128)
        (eqb (load false (decode_table_valid T) (Zb c)) (covered_by AsciiIdentity c)
         && implb (covered_by AsciiIdentity c)
                  (Zb (load x00 (decode_table T) (Zb c)) =? Zb c)).

(** The sequence of a byte is one well-formed character of visible
    bytes. *)
Definition sequence_check (T : tables) (b : byte) : bool :=
  utf8_char (sequence_of T b) && forallb visible (sequence_of T b).

(** * Properties *)

(** ** Arrays and buffers *)

Lemma idx_cons_0 {A : Type} (z x : A) (l : list A) : idx z (x :: l) 0 = x.
Proof. reflexivity. Qed.

Lemma idx_app_r {A : Type} (z : A) (pre l : list A) (k : Z) :
  0 <= k -> idx z (pre ++ l) (Z.of_nat (length pre) + k) = idx z l k.
Proof.
  intros Hk. unfold idx.
  destruct (Z.ltb_spec (Z.of_nat (length pre) + k) 0) as [Hneg|_]; [lia|].
  destruct (Z.ltb_spec k 0) as [Hneg|_]; [lia|].
  rewrite lookup_app_r by lia. do 2 f_equal. lia.
Qed.

Lemma idx_take {A : Type} (z : A) (l : list A) (n : nat) (k : Z) :
  0 <= k < Z.of_nat n -> idx z (take n l) k = idx z l k.
Proof.
  intros Hk. unfold idx. destruct (Z.ltb_spec k 0) as [Hneg|_]; [lia|].
  rewrite lookup_take_lt by lia. reflexivity.
Qed.

Lemma drop_app_at {A : Type} (pre l : list A) :
  drop (Z.to_nat (Z.of_nat (length pre))) (pre ++ l) = l.
Proof. rewrite Nat2Z.id. apply drop_app_length. Qed.

(** The hash of [len] bytes reads the first [len] bytes only. *)
Lemma utf8_hash_take (bytes : list byte) (len : Z) :
  utf8_hash (take (Z.to_nat len) bytes) len = utf8_hash bytes len.
Proof.
  unfold utf8_hash.
  destruct (Z.eqb_spec len 1) as [->|_]; [rewrite idx_take by lia; reflexivity|].
  destruct (Z.eqb_spec len 2) as [->|_]; [rewrite !idx_take by lia; reflexivity|].
  destruct (Z.eqb_spec len 3) as [->|_]; [rewrite !idx_take by lia; reflexivity|].
  reflexivity.
Qed.

Lemma utf8_hash_app (s rest : list byte) (len : Z) :
  len = Z.of_nat (length s) -> utf8_hash (s ++ rest) len = utf8_hash s len.
Proof.
  intros ->. rewrite <- (utf8_hash_take (s ++ rest)), <- (utf8_hash_take s).
  rewrite Nat2Z.id, take_app_length, firstn_all. reflexivity.
Qed.

(** X13. Every hash, of any bytes and any length, is an index inside the
    arrays of [DECODE_MAP_SIZE] entries: the builder and the decoder
    never index [decode_table] or [decode_table_valid] out of bounds. *)
Lemma utf8_hash_range (bytes : list byte) (len : Z) :
  0 <= utf8_hash bytes len < DECODE_MAP_SIZE.
Proof.
  unfold utf8_hash, u16, DECODE_MAP_SIZE.
  repeat match goal with |- context [if ?c then _ else _] => destruct c end;
    try (apply Z.mod_pos_bound; lia); lia.
Qed.

Lemma bind_returns {A B : Type} (a : A) (k : A -> outcome B) :
  (Returns a ≫= k) = k a.
Proof. reflexivity. Qed.

Lemma buffer_init_wf (capacity : Z) : 0 <= capacity -> buffer_wf (buffer_init capacity).
Proof.
  intros H. unfold buffer_wf, buffer_init, buf_size, INITIAL_BUFFER_SIZE. simpl.
  destruct (capacity =? 0); lia.
Qed.

Lemma buffer_init_capacity (capacity : Z) :
  0 <= capacity -> capacity <= buf_capacity (buffer_init capacity).
Proof.
  intros H. unfold buffer_init, INITIAL_BUFFER_SIZE. simpl.
  destruct (Z.eqb_spec capacity 0); lia.
Qed.

Lemma buffer_init_data (capacity : Z) : buf_data (buffer_init capacity) = [].
Proof. reflexivity. Qed.

(** Two appends in a row are one append of the concatenation: the second
    check fails whenever the first one does. *)
Lemma buffer_append_app (buf : buffer_t) (a b : list byte) :
  (buffer_append buf a ≫= fun buf' => buffer_append buf' b) = buffer_append buf (a ++ b).
Proof.
  unfold buffer_append, buf_size. rewrite length_app.
  destruct (Z.gtb_spec (Z.of_nat (length (buf_data buf)) + Z.of_nat (length a))
                       (buf_capacity buf)) as [Hgt|Hle].
  - destruct (Z.gtb_spec (Z.of_nat (length (buf_data buf)) + Z.of_nat (length a + length b))
                         (buf_capacity buf)) as [_|Hle]; [reflexivity|lia].
  - rewrite bind_returns. simpl. rewrite length_app, app_assoc.
    replace (Z.of_nat (length (buf_data buf) + length a) + Z.of_nat (length b))
      with (Z.of_nat (length (buf_data buf)) + Z.of_nat (length a + length b)) by lia.
    reflexivity.
Qed.

Lemma buffer_append_returns (buf : buffer_t) (data : list byte) :
  buf_size buf + Z.of_nat (length data) <= buf_capacity buf ->
  buffer_append buf data =
  Returns {| buf_data := buf_data buf ++ data; buf_capacity := buf_capacity buf |}.
Proof.
  intros H. unfold buffer_append.
  destruct (Z.gtb_spec (buf_size buf + Z.of_nat (length data)) (buf_capacity buf));
    [lia|reflexivity].
Qed.

Lemma buffer_append_nil (buf : buffer_t) :
  buffer_wf buf -> buffer_append buf [] = Returns buf.
Proof.
  unfold buffer_wf. intros H.
  rewrite buffer_append_returns by (change (Z.of_nat (length (@nil byte))) with 0; lia).
  destruct buf as [d c]. simpl. rewrite app_nil_r. reflexivity.
Qed.

Lemma buffer_append_inv (buf buf' : buffer_t) (data : list byte) :
  buffer_append buf data = Returns buf' ->
  buf_data buf' = buf_data buf ++ data /\ buf_capacity buf' = buf_capacity buf /\
  buffer_wf buf'.
Proof.
  unfold buffer_append, buffer_wf.
  destruct (Z.gtb_spec (buf_size buf + Z.of_nat (length data)) (buf_capacity buf));
    [discriminate|].
  intros [= <-]. split; [reflexivity|]. split; [reflexivity|].
  unfold buf_size in *. simpl. rewrite length_app. lia.
Qed.

(** If every buffer a first append can return leads two continuations to
    the same outcome, the two sequenced computations agree. *)
Lemma bind_append_ext {B : Type} (buf : buffer_t) (data : list byte)
    (k1 k2 : buffer_t -> outcome B) :
  (forall buf', buffer_append buf data = Returns buf' -> k1 buf' = k2 buf') ->
  (buffer_append buf data ≫= k1) = (buffer_append buf data ≫= k2).
Proof.
  intros H. destruct (buffer_append buf data) as [buf'| | |]; try reflexivity.
  rewrite !bind_returns. apply H. reflexivity.
Qed.

(** ** The sequence of a byte and the encoding of a buffer *)

Lemma encoding_cons (T : tables) (b : byte) (B : list byte) :
  encoding T (b :: B) = sequence_of T b ++ encoding T B.
Proof. reflexivity. Qed.

Lemma match_lengths_S (T : tables) (input : list byte) (i : Z) (len' : nat) :
  match_lengths T input i (S len') =
  if Z.of_nat (S len') <=? 3 then
    if i + Z.of_nat (S len') <=? Z.of_nat (length input) then
      let hash := utf8_hash (drop (Z.to_nat i) input) (Z.of_nat (S len')) in
      if load false (decode_table_valid T) hash then
        Some (load x00 (decode_table T) hash, Z.of_nat (S len'))
      else match_lengths T input i len'
    else match_lengths T input i len'
  else None.
Proof. reflexivity. Qed.

Lemma decode_loop_S (T : tables) (fuel : nat) (input : list byte) (i : Z)
    (output : buffer_t) :
  decode_loop T (S fuel) input i output =
  if i <? Z.of_nat (length input) then
    match match_lengths T input i (Z.to_nat (clamped_length input i)) with
    | Some (decoded_byte, len) =>
      buffer_append_char output decoded_byte ≫= decode_loop T fuel input (i + len)
    | None => decode_loop T fuel input (i + 1) output
    end
  else Returns output.
Proof. reflexivity. Qed.

Lemma decode_loop_end (T : tables) (fuel : nat) (input : list byte) (i : Z)
    (output : buffer_t) :
  Z.of_nat (length input) <= i -> decode_loop T fuel input i output = Returns output.
Proof.
  intros H. destruct fuel; simpl;
    destruct (Z.ltb_spec i (Z.of_nat (length input))); (lia || reflexivity).
Qed.

Section WithTables.

Context (T : tables) (HT : table_ok T).

Lemma sequence_length (b : byte) :
  Z.of_nat (length (sequence_of T b)) = utf8_length (entry T b).
Proof.
  unfold sequence_of. rewrite length_take, (entry_bytes T HT).
  pose proof (entry_length T HT b). lia.
Qed.

Lemma sequence_inv (b : byte) :
  exists c s, sequence_of T b = c :: s /\ c = idx x00 (utf8_bytes (entry T b)) 0 /\
              (length s <= 2)%nat.
Proof.
  pose proof (sequence_length b) as Hl. pose proof (entry_length T HT b) as Hr.
  destruct (sequence_of T b) as [|c s] eqn:E; simpl in Hl; [lia|].
  exists c, s. split; [reflexivity|]. split; [|lia].
  rewrite <- (idx_cons_0 x00 c s), <- E. unfold sequence_of.
  rewrite idx_take by lia. reflexivity.
Qed.

Lemma sequence_hash (b : byte) (rest : list byte) :
  utf8_hash (sequence_of T b ++ rest) (utf8_length (entry T b)) =
  utf8_hash (utf8_bytes (entry T b)) (utf8_length (entry T b)).
Proof.
  rewrite utf8_hash_app by (symmetry; apply sequence_length).
  apply utf8_hash_take.
Qed.

Lemma encoding_length_le (B : list byte) :
  Z.of_nat (length B) <= Z.of_nat (length (encoding T B)) <= 3 * Z.of_nat (length B).
Proof.
  induction B as [|b B IH]; [simpl; lia|].
  rewrite encoding_cons, length_app.
  pose proof (sequence_length b). pose proof (entry_length T HT b).
  simpl length. lia.
Qed.

(** The encoder appends the sequences of the input bytes in order. *)
Lemma encode_byte_eq (output : buffer_t) (c : byte) :
  buffer_wf output ->
  encode_byte T output c = buffer_append output (sequence_of T c).
Proof.
  intros Hwf. unfold encode_byte. fold (entry T c). fold (sequence_of T c).
  pose proof (entry_length T HT c).
  destruct (Z.gtb_spec (utf8_length (entry T c)) 0); [reflexivity|lia].
Qed.

Lemma encode_loop_eq (B : list byte) (output : buffer_t) :
  buffer_wf output ->
  encode_loop T B output = buffer_append output (encoding T B).
Proof.
  revert output. induction B as [|b B IH]; intros output Hwf; simpl.
  - symmetry. apply buffer_append_nil, Hwf.
  - rewrite encode_byte_eq by exact Hwf. rewrite <- buffer_append_app.
    apply bind_append_ext. intros buf' Hb. apply IH.
    apply (buffer_append_inv _ _ _ Hb).
Qed.

Lemma encode_data_eq (B : list byte) :
  encode_data T B =
  Returns {| buf_data := encoding T B;
             buf_capacity := buf_capacity (buffer_init (Z.of_nat (length B) * 3)) |}.
Proof.
  unfold encode_data. rewrite encode_loop_eq by (apply buffer_init_wf; lia).
  rewrite buffer_append_returns; [reflexivity|].
  pose proof (buffer_init_capacity (Z.of_nat (length B) * 3)).
  pose proof (encoding_length_le B). unfold buf_size. rewrite buffer_init_data.
  simpl length. lia.
Qed.

(** At the start of a sequence the decoder matches it at the first
    attempt, whatever follows. *)
Lemma match_lengths_sequence (pre rest : list byte) (b : byte) :
  match_lengths T (pre ++ sequence_of T b ++ rest) (Z.of_nat (length pre))
                (Z.to_nat (utf8_length (entry T b))) =
  Some (b, utf8_length (entry T b)).
Proof.
  pose proof (entry_length T HT b) as Hr. pose proof (sequence_length b) as Hl.
  destruct (Z.to_nat (utf8_length (entry T b))) as [|n] eqn:En; [lia|].
  rewrite match_lengths_S. rewrite <- En, Z2Nat.id by lia.
  destruct (Z.leb_spec (utf8_length (entry T b)) 3) as [_|?]; [|lia].
  rewrite !length_app.
  destruct (Z.leb_spec (Z.of_nat (length pre) + utf8_length (entry T b))
              (Z.of_nat (length pre + (length (sequence_of T b) + length rest))))
    as [_|?]; [|lia].
  cbv zeta. rewrite drop_app_at, sequence_hash.
  rewrite (entry_valid T HT), (entry_decoded T HT). reflexivity.
Qed.

Lemma clamped_length_sequence (pre rest : list byte) (b : byte) :
  clamped_length (pre ++ sequence_of T b ++ rest) (Z.of_nat (length pre)) =
  utf8_length (entry T b).
Proof.
  pose proof (sequence_length b) as Hl.
  destruct (sequence_inv b) as (c & s & Es & Ec & _).
  unfold clamped_length.
  replace (idx x00 (pre ++ sequence_of T b ++ rest) (Z.of_nat (length pre)))
    with c.
  - rewrite Ec, (entry_lead T HT). rewrite !length_app.
    destruct (Z.gtb_spec (Z.of_nat (length pre) + utf8_length (entry T b))
                (Z.of_nat (length pre + (length (sequence_of T b) + length rest))));
      [lia|reflexivity].
  - rewrite <- (Z.add_0_r (Z.of_nat (length pre))), idx_app_r by lia.
    rewrite Es. reflexivity.
Qed.

(** Decoding the encoding of [B] appends [B], one byte per sequence. *)
Lemma decode_loop_encoding (B pre : list byte) (fuel : nat) (output : buffer_t) :
  (length (encoding T B) <= fuel)%nat ->
  buffer_wf output ->
  decode_loop T fuel (pre ++ encoding T B) (Z.of_nat (length pre)) output =
  buffer_append output B.
Proof.
  revert pre fuel output.
  induction B as [|b B IH]; intros pre fuel output Hfuel Hwf.
  - rewrite buffer_append_nil by exact Hwf. apply decode_loop_end.
    simpl. rewrite app_nil_r. lia.
  - pose proof (sequence_length b) as Hl. pose proof (entry_length T HT b) as Hr.
    rewrite encoding_cons in *. rewrite length_app in Hfuel.
    destruct fuel as [|fuel]; [lia|].
    rewrite decode_loop_S.
    destruct (Z.ltb_spec (Z.of_nat (length pre))
                (Z.of_nat (length (pre ++ sequence_of T b ++ encoding T B))))
      as [_|Hge]; [|rewrite !length_app in Hge; lia].
    rewrite clamped_length_sequence, match_lengths_sequence.
    change (b :: B) with ([b] ++ B). rewrite <- buffer_append_app.
    apply bind_append_ext. intros buf' Hb.
    replace (Z.of_nat (length pre) + utf8_length (entry T b))
      with (Z.of_nat (length (pre ++ sequence_of T b))) by (rewrite length_app; lia).
    rewrite (app_assoc pre). apply IH; [lia|].
    apply (buffer_append_inv _ _ _ Hb).
Qed.

Lemma decode_data_encoding (B : list byte) :
  decode_data T (encoding T B) =
  Returns {| buf_data := B;
             buf_capacity :=
               buf_capacity (buffer_init (Z.of_nat (length (encoding T B)))) |}.
Proof.
  unfold decode_data.
  rewrite (decode_loop_encoding B [] _ _ (le_n _))
    by (apply buffer_init_wf; lia).
  rewrite buffer_append_returns; [reflexivity|].
  pose proof (buffer_init_capacity (Z.of_nat (length (encoding T B)))).
  pose proof (encoding_length_le B). unfold buf_size. rewrite buffer_init_data.
  simpl length. lia.
Qed.

End WithTables.

(** ** The tables built by [init_tables] *)

Lemma u8_Zb (b : byte) : u8 (Zb b) = b.
Proof. destruct b; reflexivity. Qed.

Lemma Zb_range (b : byte) : 0 <= Zb b < 256.
Proof. unfold Zb. pose proof (Byte.to_N_bounded b). lia. Qed.

Lemma Zb_inj (a b : byte) : Zb a = Zb b -> a = b.
Proof. intros H. rewrite <- (u8_Zb a), <- (u8_Zb b), H. reflexivity. Qed.

Lemma all_bytes_complete (b : byte) : In b all_bytes.
Proof.
  rewrite <- (u8_Zb b). unfold all_bytes. apply in_map.
  apply list_elem_of_In, elem_of_seqZ. pose proof (Zb_range b). lia.
Qed.

(** A boolean fact about one byte holds for all once it is computed on
    the 256 values, in one evaluation of the tables. *)
Lemma forall_bytes (P : byte -> bool) :
  forallb P all_bytes = true -> forall b, P b = true.
Proof.
  intros H b. rewrite forallb_forall in H. apply H, all_bytes_complete.
Qed.

Lemma bytes_eqb_eq (l1 l2 : list byte) : bytes_eqb l1 l2 = true -> l1 = l2.
Proof.
  revert l2. induction l1 as [|a l1 IH]; intros [|b l2]; simpl; try discriminate.
  - reflexivity.
  - intros H. apply andb_prop in H as [Hab Hl]. apply Z.eqb_eq, Zb_inj in Hab.
    rewrite Hab, (IH _ Hl). reflexivity.
Qed.

Lemma init_table_check_all : forallb (table_check init_tables) all_bytes = true.
Proof. vm_compute. reflexivity. Qed.

Lemma init_tables_ok : table_ok init_tables.
Proof.
  assert (H : forall b, table_check init_tables b = true)
    by (apply forall_bytes, init_table_check_all).
  unfold table_check in H.
  split; intros b; specialize (H b); cbv zeta in H;
    repeat (apply andb_prop in H as [H ?]).
  - apply Z.leb_le in H. lia.
  - apply Nat.eqb_eq. assumption.
  - apply Z.eqb_eq. assumption.
  - assumption.
  - apply Zb_inj, Z.eqb_eq. assumption.
  - assumption.
Qed.

Lemma init_entry_lead (b : byte) :
  utf8_sequence_length (idx x00 (utf8_bytes (entry init_tables b)) 0) =
  utf8_length (entry init_tables b).
Proof. apply (entry_lead _ init_tables_ok). Qed.

Lemma init_entry_decoded (b : byte) :
  load x00 (decode_table init_tables)
       (utf8_hash (utf8_bytes (entry init_tables b))
                  (utf8_length (entry init_tables b))) = b.
Proof. apply (entry_decoded _ init_tables_ok). Qed.

(** ** The decoder on arbitrary input *)

Lemma match_lengths_bounds (T : tables) (input : list byte) (i : Z) (len : nat)
    (d : byte) (l : Z) :
  match_lengths T input i len = Some (d, l) ->
  1 <= l <= 3 /\ l <= Z.of_nat len /\ i + l <= Z.of_nat (length input).
Proof.
  induction len as [|len IH]; [discriminate|].
  rewrite match_lengths_S.
  destruct (Z.leb_spec (Z.of_nat (S len)) 3) as [H3|_]; [|discriminate].
  destruct (Z.leb_spec (i + Z.of_nat (S len)) (Z.of_nat (length input))) as [Hin|_].
  - cbv zeta.
    destruct (load false (decode_table_valid T)
                (utf8_hash (drop (Z.to_nat i) input) (Z.of_nat (S len)))).
    + intros [= _ <-]. lia.
    + intros H. apply IH in H. lia.
  - intros H. apply IH in H. lia.
Qed.

(** The loop returns once its fuel covers what is left of the input; the
    output never grows past the position reached in the input. *)
Lemma decode_loop_returns (T : tables) (fuel : nat) (input : list byte) (i : Z)
    (output : buffer_t) :
  0 <= i <= Z.of_nat (length input) ->
  Z.of_nat (length input) - i <= Z.of_nat fuel ->
  buf_size output <= i ->
  Z.of_nat (length input) <= buf_capacity output ->
  exists output',
    decode_loop T fuel input i output = Returns output' /\
    buf_size output' <= Z.of_nat (length input).
Proof.
  revert i output. induction fuel as [|fuel IH]; intros i output Hi Hfuel Hsize Hcap.
  - exists output. split; [apply decode_loop_end|]; lia.
  - rewrite decode_loop_S.
    destruct (Z.ltb_spec i (Z.of_nat (length input))) as [Hlt|Hge];
      [|exists output; split; [reflexivity|lia]].
    destruct (match_lengths T input i (Z.to_nat (clamped_length input i)))
      as [[d l]|] eqn:Em.
    + apply match_lengths_bounds in Em. unfold buffer_append_char.
      rewrite buffer_append_returns by (simpl length; lia).
      rewrite bind_returns. apply IH; [lia|lia| |exact Hcap].
      unfold buf_size in *. cbn [buf_data]. rewrite length_app. simpl length. lia.
    + apply IH; lia.
Qed.

Lemma decode_loop_more_fuel (T : tables) (fuel fuel' : nat) (input : list byte)
    (i : Z) (output result : buffer_t) :
  (fuel <= fuel')%nat ->
  decode_loop T fuel input i output = Returns result ->
  decode_loop T fuel' input i output = Returns result.
Proof.
  revert fuel' i output.
  induction fuel as [|fuel IH]; intros fuel' i output Hle H.
  - simpl in H. destruct (Z.ltb_spec i (Z.of_nat (length input))); [discriminate|].
    rewrite decode_loop_end by lia. exact H.
  - destruct fuel' as [|fuel']; [lia|]. rewrite decode_loop_S in *.
    destruct (i <? Z.of_nat (length input)); [|exact H].
    destruct (match_lengths T input i (Z.to_nat (clamped_length input i)))
      as [[d l]|]; [|apply IH; [lia|exact H]].
    destruct (buffer_append_char output d) as [output'| | |]; try discriminate H.
    rewrite bind_returns in *. apply IH; [lia|exact H].
Qed.

(** ** The formatter and the sanitizer on encoder output *)

Lemma format_loop_S (fuel : nat) (input : list byte) (g n cc i : Z) (output : buffer_t) :
  format_loop (S fuel) input g n cc i output =
  if i <? Z.of_nat (length input) then
    copy_character input i 0 (Z.to_nat (utf8_sequence_length (idx x00 input i))) output
    ≫= fun output1 =>
      add_spacing input g n (cc + 1) (i + utf8_sequence_length (idx x00 input i)) output1
      ≫= format_loop fuel input g n (cc + 1) (i + utf8_sequence_length (idx x00 input i))
  else Returns output.
Proof. reflexivity. Qed.

Lemma format_loop_end (fuel : nat) (input : list byte) (g n cc i : Z) (output : buffer_t) :
  Z.of_nat (length input) <= i -> format_loop fuel input g n cc i output = Returns output.
Proof.
  intros H. destruct fuel; simpl;
    destruct (Z.ltb_spec i (Z.of_nat (length input))); (lia || reflexivity).
Qed.

Lemma bind_returns_r {A : Type} (m : outcome A) : (m ≫= Returns) = m.
Proof. destruct m; reflexivity. Qed.

Lemma size_div_nonzero (a b : Z) : b <> 0 -> size_div a b = Returns (a / b).
Proof. unfold size_div. destruct (Z.eqb_spec b 0); [contradiction|reflexivity]. Qed.

Lemma size_of_int_small (z : Z) : 0 <= z <= INT_MAX -> size_of_int z = z.
Proof. unfold size_of_int, INT_MAX. intros H. apply Z.mod_small. lia. Qed.

Lemma wrap_int_small (z : Z) : 0 <= z <= INT_MAX -> wrap_int z = z.
Proof.
  unfold wrap_int, INT_MAX. intros H. rewrite Z.mod_small by lia. lia.
Qed.

Lemma add_spacing_eq (input : list byte) (g n cc i : Z) (output : buffer_t) :
  1 <= g <= INT_MAX -> 1 <= n <= INT_MAX -> buffer_wf output ->
  add_spacing input g n cc i output =
  buffer_append output (separator g n cc (i <? Z.of_nat (length input))).
Proof.
  intros Hg Hn Hwf. unfold add_spacing, separator, size_rem, size_div.
  rewrite !size_of_int_small by lia.
  destruct (Z.eqb_spec g 0) as [?|_]; [lia|].
  destruct (Z.eqb_spec n 0) as [?|_]; [lia|].
  rewrite !bind_returns.
  destruct ((cc mod g =? 0) && (i <? Z.of_nat (length input))).
  - unfold buffer_append_char.
    destruct (((cc / g) mod n =? 0) && (i <? Z.of_nat (length input))) eqn:Eline.
    + change [x20; x0a] with ([x20] ++ [x0a]). rewrite <- buffer_append_app.
      apply bind_append_ext. intros buf' _. rewrite !bind_returns, Eline. reflexivity.
    + rewrite <- (bind_returns_r (buffer_append output [x20])) at 2.
      apply bind_append_ext. intros buf' _. rewrite !bind_returns, Eline. reflexivity.
  - symmetry. apply buffer_append_nil, Hwf.
Qed.

Lemma copy_character_S (input : list byte) (i j : Z) (left : nat) (output : buffer_t) :
  copy_character input i j (S left) output =
  if i + j <? Z.of_nat (length input) then
    buffer_append_char output (idx x00 input (i + j))
    ≫= copy_character input i (j + 1) left
  else Returns output.
Proof. reflexivity. Qed.

Lemma copy_character_eq (pre s1 s2 rest : list byte) (output : buffer_t) :
  buffer_wf output ->
  copy_character (pre ++ s1 ++ s2 ++ rest) (Z.of_nat (length pre))
                 (Z.of_nat (length s1)) (length s2) output =
  buffer_append output s2.
Proof.
  revert s1 output. induction s2 as [|c s2 IH]; intros s1 output Hwf.
  - simpl. symmetry. apply buffer_append_nil, Hwf.
  - change (length (c :: s2)) with (S (length s2)). rewrite copy_character_S.
    destruct (Z.ltb_spec (Z.of_nat (length pre) + Z.of_nat (length s1))
                (Z.of_nat (length (pre ++ s1 ++ (c :: s2) ++ rest)))) as [_|Hge];
      [|rewrite !length_app in Hge; simpl length in Hge; lia].
    rewrite idx_app_r by lia.
    replace (idx x00 (s1 ++ (c :: s2) ++ rest) (Z.of_nat (length s1))) with c
      by (rewrite <- (Z.add_0_r (Z.of_nat (length s1))), idx_app_r by lia;
          reflexivity).
    unfold buffer_append_char. change (c :: s2) with ([c] ++ s2) at 2.
    rewrite <- buffer_append_app. apply bind_append_ext. intros buf' Hb.
    replace (Z.of_nat (length s1) + 1) with (Z.of_nat (length (s1 ++ [c])))
      by (rewrite length_app; simpl length; lia).
    replace (pre ++ s1 ++ (c :: s2) ++ rest) with (pre ++ (s1 ++ [c]) ++ s2 ++ rest)
      by (rewrite <- (app_assoc s1); reflexivity).
    apply IH. apply (buffer_append_inv _ _ _ Hb).
Qed.

(** The sanitizer appends the bytes of its input that are not white
    space. *)
Lemma clean_loop_eq (input : list byte) (output : buffer_t) :
  buffer_wf output ->
  clean_loop input output = buffer_append output (List.filter printable input).
Proof.
  revert output. induction input as [|c input IH]; intros output Hwf; simpl.
  - symmetry. apply buffer_append_nil, Hwf.
  - unfold printable at 1. destruct (negb (is_whitespace c)).
    + unfold buffer_append_char.
      change (c :: List.filter printable input) with ([c] ++ List.filter printable input).
      rewrite <- buffer_append_app. apply bind_append_ext. intros buf' Hb.
      apply IH. apply (buffer_append_inv _ _ _ Hb).
    + apply IH, Hwf.
Qed.

Lemma clean_decode_input_eq (input : buffer_t) :
  clean_decode_input input =
  Returns {| buf_data := List.filter printable (buf_data input);
             buf_capacity := buf_capacity (buffer_init (buf_size input)) |}.
Proof.
  unfold clean_decode_input, buf_size.
  rewrite clean_loop_eq by (apply buffer_init_wf; lia).
  rewrite buffer_append_returns; [reflexivity|].
  pose proof (buffer_init_capacity (Z.of_nat (length (buf_data input)))).
  pose proof (filter_length_le printable (buf_data input)).
  unfold buf_size. rewrite buffer_init_data. simpl length. lia.
Qed.

Lemma filter_printable_id (l : list byte) :
  forallb printable l = true -> List.filter printable l = l.
Proof.
  induction l as [|c l IH]; simpl; [reflexivity|].
  destruct (printable c); [|discriminate]. simpl. intros H. rewrite IH by exact H.
  reflexivity.
Qed.

Lemma filter_separator (g n cc : Z) (more : bool) :
  List.filter printable (separator g n cc more) = [].
Proof.
  unfold separator. destruct ((cc mod g =? 0) && more); [|reflexivity].
  destruct (((cc / g) mod n =? 0) && more); reflexivity.
Qed.

(** Counting separators: one space per completed group and one line
    feed per completed line. *)
Lemma div_pred (k g : Z) : 1 <= g -> k mod g = 0 -> (k - 1) / g = k / g - 1.
Proof.
  intros Hg Hk. symmetry. apply (Z.div_unique _ _ _ (g - 1)); [lia|].
  pose proof (Z.div_mod k g ltac:(lia)). lia.
Qed.

Lemma mod_mul_0 (k g n : Z) :
  1 <= g -> 1 <= n -> k mod g = 0 -> (k / g) mod n = 0 -> k mod (g * n) = 0.
Proof.
  intros Hg Hn Hk Hq.
  pose proof (Z.div_mod k g ltac:(lia)) as E1.
  pose proof (Z.div_mod (k / g) n ltac:(lia)) as E2.
  rewrite Hk in E1. rewrite Hq in E2.
  symmetry. apply (Z.mod_unique _ _ (k / g / n)); [nia|].
  rewrite E1 at 1. rewrite E2 at 1. ring.
Qed.

Lemma separator_length (g n cc : Z) (more : bool) :
  1 <= g -> 1 <= n -> 0 <= cc ->
  Z.of_nat (length (separator g n (cc + 1) more)) <=
  ((cc + 1) / g - cc / g) + ((cc + 1) / (g * n) - cc / (g * n)).
Proof.
  intros Hg Hn Hcc.
  assert (Hgn : 1 <= g * n) by nia.
  pose proof (Z.div_le_mono cc (cc + 1) g ltac:(lia) ltac:(lia)) as M1.
  pose proof (Z.div_le_mono cc (cc + 1) (g * n) ltac:(lia) ltac:(lia)) as M2.
  unfold separator.
  destruct (Z.eqb_spec ((cc + 1) mod g) 0) as [E1|_]; [|simpl; lia].
  destruct more; [|simpl; lia]. simpl andb.
  pose proof (div_pred (cc + 1) g Hg E1) as P1.
  replace (cc + 1 - 1) with cc in P1 by lia.
  destruct (Z.eqb_spec (((cc + 1) / g) mod n) 0) as [E2|_]; [|simpl; lia].
  pose proof (div_pred (cc + 1) (g * n) Hgn (mod_mul_0 _ _ _ Hg Hn E1 E2)) as P2.
  replace (cc + 1 - 1) with cc in P2 by lia.
  simpl. lia.
Qed.

Section FormatWithTables.

Context (T : tables) (HT : table_ok T).
Context (g n : Z) (Hg : 1 <= g <= INT_MAX) (Hn : 1 <= n <= INT_MAX).

Lemma encoding_nonempty (B : list byte) :
  (0 <? Z.of_nat (length (encoding T B))) = nonempty B.
Proof.
  destruct B as [|b B]; [reflexivity|].
  pose proof (encoding_length_le T HT (b :: B)) as H.
  change (length (b :: B)) with (S (length B)) in H.
  simpl nonempty. apply Z.ltb_lt. lia.
Qed.

Lemma lead_byte_sequence (pre rest : list byte) (b : byte) :
  utf8_sequence_length (idx x00 (pre ++ sequence_of T b ++ rest)
                            (Z.of_nat (length pre))) =
  utf8_length (entry T b).
Proof.
  destruct (sequence_inv T HT b) as (c & s & Es & Ec & _).
  rewrite <- (Z.add_0_r (Z.of_nat (length pre))), idx_app_r by lia.
  rewrite Es. change (idx x00 ((c :: s) ++ rest) 0) with c.
  rewrite Ec. apply (entry_lead T HT).
Qed.

(** On the encoding of [B] the formatter copies each sequence whole
    and puts its separator after it. *)
Lemma format_loop_encoding (B pre : list byte) (fuel : nat) (cc : Z)
    (output : buffer_t) :
  (length (encoding T B) <= fuel)%nat ->
  buffer_wf output ->
  format_loop fuel (pre ++ encoding T B) g n cc (Z.of_nat (length pre)) output =
  buffer_append output (formatted T g n cc B).
Proof.
  revert pre fuel cc output.
  induction B as [|b B IH]; intros pre fuel cc output Hfuel Hwf.
  - rewrite buffer_append_nil by exact Hwf. apply format_loop_end.
    simpl. rewrite app_nil_r. lia.
  - pose proof (sequence_length T HT b) as Hl.
    pose proof (entry_length T HT b) as Hr.
    rewrite encoding_cons in *. rewrite length_app in Hfuel.
    destruct fuel as [|fuel]; [lia|].
    rewrite format_loop_S.
    destruct (Z.ltb_spec (Z.of_nat (length pre))
                (Z.of_nat (length (pre ++ sequence_of T b ++ encoding T B))))
      as [_|Hge]; [|rewrite !length_app in Hge; lia].
    rewrite lead_byte_sequence.
    replace (Z.to_nat (utf8_length (entry T b))) with (length (sequence_of T b))
      by lia.
    pose proof (copy_character_eq pre [] (sequence_of T b) (encoding T B)
                  output Hwf) as Hcopy.
    change (Z.of_nat (length (@nil byte))) with 0 in Hcopy.
    change ([] ++ sequence_of T b ++ encoding T B)
      with (sequence_of T b ++ encoding T B) in Hcopy.
    rewrite Hcopy. clear Hcopy.
    simpl formatted. rewrite <- buffer_append_app.
    apply bind_append_ext. intros buf1 Hb1.
    apply buffer_append_inv in Hb1 as (_ & _ & Hwf1).
    rewrite add_spacing_eq by assumption.
    replace (Z.of_nat (length pre) + utf8_length (entry T b) <?
             Z.of_nat (length (pre ++ sequence_of T b ++ encoding T B)))
      with (nonempty B).
    + rewrite <- buffer_append_app. apply bind_append_ext. intros buf2 Hb2.
      apply buffer_append_inv in Hb2 as (_ & _ & Hwf2).
      replace (Z.of_nat (length pre) + utf8_length (entry T b))
        with (Z.of_nat (length (pre ++ sequence_of T b)))
        by (rewrite length_app; lia).
      rewrite (app_assoc pre). apply IH; [lia|exact Hwf2].
    + rewrite <- encoding_nonempty. rewrite !length_app.
      destruct (Z.ltb_spec 0 (Z.of_nat (length (encoding T B))));
        symmetry; [apply Z.ltb_lt|apply Z.ltb_ge]; lia.
Qed.

Lemma formatted_length (B : list byte) (cc : Z) :
  0 <= cc ->
  Z.of_nat (length (formatted T g n cc B)) <=
  Z.of_nat (length (encoding T B))
  + ((cc + Z.of_nat (length B)) / g - cc / g)
  + ((cc + Z.of_nat (length B)) / (g * n) - cc / (g * n)).
Proof.
  revert cc. induction B as [|b B IH]; intros cc Hcc.
  - simpl. rewrite Z.add_0_r. lia.
  - simpl formatted. rewrite encoding_cons, !length_app.
    pose proof (IH (cc + 1) ltac:(lia)) as IH'.
    pose proof (separator_length g n cc (nonempty B) ltac:(lia) ltac:(lia) Hcc).
    replace (cc + Z.of_nat (length (b :: B))) with (cc + 1 + Z.of_nat (length B))
      by (simpl length; lia).
    lia.
Qed.

(** The estimate of [format_output] covers the formatted text when the
    product of the two group parameters is an [int]. *)
Lemma formatted_fits (B : list byte) :
  let size := Z.of_nat (length (encoding T B)) in
  Z.of_nat (length (formatted T g n 0 B)) <= size + size / g + size / (g * n).
Proof.
  intros size. pose proof (formatted_length B 0 ltac:(lia)) as H.
  pose proof (encoding_length_le T HT B) as [Hle _]. fold size in Hle, H.
  assert (Hgn : 1 <= g * n) by nia.
  pose proof (Z.div_le_mono (Z.of_nat (length B)) size g ltac:(lia) Hle).
  pose proof (Z.div_le_mono (Z.of_nat (length B)) size (g * n) ltac:(lia) Hle).
  rewrite !Z.add_0_l, !Zdiv_0_l in H. lia.
Qed.

Lemma filter_formatted (B : list byte) (cc : Z) :
  List.filter printable (formatted T g n cc B) = encoding T B.
Proof.
  revert cc. induction B as [|b B IH]; intros cc; [reflexivity|].
  simpl formatted. rewrite encoding_cons, !List.filter_app.
  rewrite filter_separator, IH.
  rewrite filter_printable_id by apply (entry_no_space T HT). reflexivity.
Qed.

(** [format_output] on the encoder's buffer: the second quotient of the
    estimate, then one append of the formatted text. *)
Lemma format_output_eq (B : list byte) (capacity : Z) :
  let size := Z.of_nat (length (encoding T B)) in
  format_output {| buf_data := encoding T B; buf_capacity := capacity |} g n =
  size_div size (size_of_int (wrap_int (g * n))) ≫= fun q2 =>
    buffer_append
      {| buf_data := []; buf_capacity := buf_capacity (buffer_init (size + size / g + q2)) |}
      (formatted T g n 0 B).
Proof.
  intros size. unfold format_output, buf_size. cbn [buf_data].
  fold size. rewrite (size_of_int_small g) by lia.
  rewrite (size_div_nonzero size g) by lia. rewrite bind_returns.
  unfold size_div.
  destruct (Z.eqb_spec (size_of_int (wrap_int (g * n))) 0) as [|Hne]; [reflexivity|].
  rewrite !bind_returns.
  assert (0 <= size / g) by (apply Z.div_pos; lia).
  assert (0 <= size / size_of_int (wrap_int (g * n))).
  { apply Z.div_pos; [lia|]. unfold size_of_int in *.
    pose proof (Z.mod_pos_bound (wrap_int (g * n)) 18446744073709551616). lia. }
  apply (format_loop_encoding B [] _ 0 _ (le_n _)).
  apply buffer_init_wf. lia.
Qed.

End FormatWithTables.

(** ** Sequences of the built table *)

Lemma init_sequence_hash (b : byte) :
  utf8_hash (sequence_of init_tables b) (Z.of_nat (length (sequence_of init_tables b))) =
  utf8_hash (utf8_bytes (entry init_tables b)) (utf8_length (entry init_tables b)).
Proof.
  rewrite (sequence_length _ init_tables_ok). unfold sequence_of.
  apply utf8_hash_take.
Qed.

(** The decode table inverts the hash of a sequence, so two bytes with
    one sequence are one byte. *)
Lemma init_sequence_inj (b1 b2 : byte) :
  sequence_of init_tables b1 = sequence_of init_tables b2 -> b1 = b2.
Proof.
  intros E.
  rewrite <- (init_entry_decoded b1), <- (init_entry_decoded b2).
  rewrite <- !init_sequence_hash, E. reflexivity.
Qed.

(** The first byte of a sequence fixes its length, so a sequence that
    starts another one is that sequence. *)
Lemma init_sequence_prefix (b1 b2 : byte) :
  sequence_of init_tables b1 `prefix_of` sequence_of init_tables b2 -> b1 = b2.
Proof.
  intros [k Ek]. apply init_sequence_inj.
  destruct (sequence_inv _ init_tables_ok b1) as (c1 & s1 & E1 & Ec1 & _).
  destruct (sequence_inv _ init_tables_ok b2) as (c2 & s2 & E2 & Ec2 & _).
  pose proof (sequence_length _ init_tables_ok b1) as L1.
  pose proof (sequence_length _ init_tables_ok b2) as L2.
  assert (Ec : c1 = c2) by (rewrite E1, E2 in Ek; simpl in Ek; congruence).
  assert (EL : utf8_length (entry init_tables b1) = utf8_length (entry init_tables b2)).
  { rewrite <- !init_entry_lead, <- Ec1, <- Ec2, Ec. reflexivity. }
  rewrite Ek, length_app in L2.
  assert (Hk : k = []) by (destruct k; [reflexivity|simpl length in L2; lia]).
  rewrite Ek, Hk, app_nil_r. reflexivity.
Qed.

(** ** The assignment rules of the builder *)

Lemma init_rule_check_all : forallb (rule_check init_tables) all_bytes = true.
Proof. vm_compute. reflexivity. Qed.

Lemma init_rule_check (b : byte) :
  covered_by (rule_of b) b = true /\
  (forall r, covered_by r b = true -> r = rule_of b) /\
  sequence_of init_tables b = rule_sequence (rule_of b) b.
Proof.
  pose proof (forall_bytes _ init_rule_check_all b) as H. unfold rule_check in H.
  apply andb_prop in H as [H Hseq]. apply andb_prop in H as [Hcov Huniq].
  split; [exact Hcov|]. split; [|apply bytes_eqb_eq, Hseq].
  intros r Hr. rewrite forallb_forall in Huniq.
  assert (Hin : In r [Curated; AsciiIdentity; PrefixC3; PrefixC4])
    by (destruct r; simpl; tauto).
  apply Huniq in Hin. rewrite Hr in Hin.
  destruct r, (rule_of b); (reflexivity || discriminate Hin).
Qed.

Lemma fresh_check_all : forallb fresh_check all_bytes = true.
Proof. vm_compute. reflexivity. Qed.

Lemma decode_state_final :
  decode_state_before 256 =
  (decode_table init_tables, decode_table_valid init_tables).
Proof. reflexivity. Qed.

Lemma whitespace_curated_all :
  forallb (fun c => implb (is_whitespace c) (curated (Zb c))) all_bytes = true.
Proof. vm_compute. reflexivity. Qed.

(** ** The lookups of the decoder *)

Lemma match_lengths_step (T : tables) (input : list byte) (i : Z) (len' : nat) :
  Z.of_nat (S len') <= 3 ->
  match_lengths T input i (S len') =
  or_else (lookup_at T input i (Z.of_nat (S len'))) (match_lengths T input i len').
Proof.
  intros H. rewrite match_lengths_S. unfold lookup_at.
  destruct (Z.leb_spec (Z.of_nat (S len')) 3) as [_|?]; [|lia].
  destruct (i + Z.of_nat (S len') <=? Z.of_nat (length input)); [|reflexivity].
  cbv zeta. destruct (load false (decode_table_valid T) _); reflexivity.
Qed.

(** From a start of 3, 2 or 1 the loop looks up that length and then
    each shorter one, down to 1, and stops at the first hit. *)
Lemma match_lengths_retries (T : tables) (input : list byte) (i : Z) :
  match_lengths T input i 3 =
    or_else (lookup_at T input i 3)
            (or_else (lookup_at T input i 2) (lookup_at T input i 1)) /\
  match_lengths T input i 2 =
    or_else (lookup_at T input i 2) (lookup_at T input i 1) /\
  match_lengths T input i 1 = lookup_at T input i 1.
Proof.
  rewrite !match_lengths_step by (simpl; lia).
  change (match_lengths T input i 0) with (@None (byte * Z)).
  change (Z.of_nat 1) with 1. change (Z.of_nat 2) with 2. change (Z.of_nat 3) with 3.
  destruct (lookup_at T input i 1); repeat split; reflexivity.
Qed.

(** From a start of 4 the loop condition [len <= 3] is false at once:
    the body never runs and nothing is looked up. *)
Lemma match_lengths_four (T : tables) (input : list byte) (i : Z) :
  match_lengths T input i 4 = None.
Proof. reflexivity. Qed.

(** A first byte of 0xF0 or more with four bytes left is skipped without
    any lookup. *)
Lemma decode_loop_estimate_four (T : tables) (fuel : nat) (input : list byte) (i : Z)
    (output : buffer_t) :
  0 <= i -> i + 4 <= Z.of_nat (length input) ->
  240 <= Zb (idx x00 input i) ->
  decode_loop T (S fuel) input i output = decode_loop T fuel input (i + 1) output.
Proof.
  intros Hi Hlen Hb. rewrite decode_loop_S.
  destruct (Z.ltb_spec i (Z.of_nat (length input))) as [_|?]; [|lia].
  assert (E : clamped_length input i = 4).
  { unfold clamped_length, utf8_sequence_length.
    destruct (Z.ltb_spec (Zb (idx x00 input i)) 128); [lia|].
    destruct (Z.ltb_spec (Zb (idx x00 input i)) 224); [lia|].
    destruct (Z.ltb_spec (Zb (idx x00 input i)) 240); [lia|].
    destruct (Z.gtb_spec (i + 4) (Z.of_nat (length input))); [lia|reflexivity]. }
  rewrite E. reflexivity.
Qed.

(** ** Separators and sequence boundaries *)

Lemma separator_is_separator (g n cc : Z) (more : bool) :
  is_separator (separator g n cc more).
Proof.
  unfold separator, is_separator.
  destruct ((cc mod g =? 0) && more); [|left; reflexivity].
  destruct (((cc / g) mod n =? 0) && more); right; [right|left]; reflexivity.
Qed.

Lemma formatted_at_boundaries (T : tables) (g n cc : Z) (B : list byte) :
  at_boundaries T B (formatted T g n cc B).
Proof.
  revert cc. induction B as [|b B IH]; intros cc; simpl.
  - constructor.
  - constructor; [apply separator_is_separator|apply IH].
Qed.

(** * The claims *)

(** C1. Round-trip identity: for every byte buffer [B] the encoder
    returns a buffer, and the decoder run on the bytes of that buffer
    returns a buffer that holds exactly [B]. *)
Theorem decode_encode_round_trip (B : list byte) :
  exists encoded decoded,
    encode_data init_tables B = Returns encoded /\
    decode_data init_tables (buf_data encoded) = Returns decoded /\
    buf_data decoded = B.
Proof.
  eexists. eexists. split; [apply (encode_data_eq _ init_tables_ok)|].
  cbn [buf_data]. split; [apply (decode_data_encoding _ init_tables_ok)|].
  reflexivity.
Qed.

(** X9. Round trip through the formatter and the sanitizer, for group
    parameters of at least 1 whose product is an [int]: encoding and
    formatting return, and cleaning and decoding the formatted text
    return the input. *)
Lemma format_round_trip_in_range (B : list byte) (g n : Z) :
  1 <= g -> 1 <= n -> g * n <= INT_MAX ->
  exists formatted_text decoded,
    encode_formatted init_tables B g n = Returns formatted_text /\
    clean_and_decode init_tables formatted_text = Returns decoded /\
    buf_data decoded = B.
Proof.
  intros Hg Hn Hgn.
  assert (Hg' : 1 <= g <= INT_MAX) by nia.
  assert (Hn' : 1 <= n <= INT_MAX) by nia.
  unfold encode_formatted, clean_and_decode.
  rewrite (encode_data_eq _ init_tables_ok), bind_returns.
  rewrite (format_output_eq _ init_tables_ok g n Hg' Hn').
  rewrite wrap_int_small, size_of_int_small by nia.
  rewrite size_div_nonzero, bind_returns by nia.
  rewrite buffer_append_returns.
  - eexists. eexists. split; [reflexivity|].
    rewrite clean_decode_input_eq, bind_returns. cbn [buf_data app].
    rewrite (filter_formatted _ init_tables_ok).
    split; [apply (decode_data_encoding _ init_tables_ok)|reflexivity].
  - pose proof (formatted_fits _ init_tables_ok g n Hg' Hn' B) as Hfit.
    cbv zeta in Hfit. unfold buf_size. cbn [buf_data buf_capacity length].
    match goal with |- context [buffer_init ?c] =>
      pose proof (buffer_init_capacity c) as Hcap end.
    assert (0 <= Z.of_nat (length (encoding init_tables B)) / g)
      by (apply Z.div_pos; lia).
    assert (0 <= Z.of_nat (length (encoding init_tables B)) / (g * n))
      by (apply Z.div_pos; nia).
    lia.
Qed.

(** C2. At group size 65536 with 65536 groups per line the product of
    the two [int]s is 2^32, which is 0 after conversion to [int]; the
    capacity estimate of [format_output] divides by it and traps, for
    every input buffer, before any byte is formatted. *)
Theorem format_traps_on_int_overflow (B : list byte) :
  encode_formatted init_tables B 65536 65536 = Traps.
Proof.
  unfold encode_formatted.
  rewrite (encode_data_eq _ init_tables_ok), bind_returns.
  unfold format_output.
  rewrite (size_div_nonzero _ (size_of_int 65536)) by (vm_compute; discriminate).
  reflexivity.
Qed.

(** C3. Injectivity: two distinct byte values have distinct sequences. *)
Theorem encode_table_injective (b1 b2 : byte) :
  b1 <> b2 -> sequence_of init_tables b1 <> sequence_of init_tables b2.
Proof. intros Hne E. apply Hne, init_sequence_inj, E. Qed.

Lemma encode_table_injective_witness :
  x00 <> x41 /\ sequence_of init_tables x00 <> sequence_of init_tables x41.
Proof.
  split; [discriminate|]. apply (encode_table_injective x00 x41). discriminate.
Defined.

(** C4. Completeness: every byte value has a table entry whose length is
    1, 2 or 3, the sequence emitted for it is non-empty and has that
    length, and the value falls under exactly one of the four assignment
    rules (curated override, ASCII identity, 0xC3 prefix, 0xC4 prefix),
    which gives its sequence. *)
Theorem encode_table_complete (b : byte) :
  1 <= utf8_length (entry init_tables b) <= 3 /\
  sequence_of init_tables b <> [] /\
  Z.of_nat (length (sequence_of init_tables b)) = utf8_length (entry init_tables b) /\
  exists r : rule,
    covered_by r b = true /\
    (forall r' : rule, covered_by r' b = true -> r' = r) /\
    sequence_of init_tables b = rule_sequence r b.
Proof.
  pose proof (entry_length _ init_tables_ok b) as Hr.
  pose proof (sequence_length _ init_tables_ok b) as Hl.
  split; [exact Hr|]. split; [|split; [exact Hl|]].
  - intros E. rewrite E in Hl. simpl in Hl. lia.
  - exists (rule_of b). apply init_rule_check.
Qed.

(** C5. On the input F2 88 85 41 the estimate at position 0 is 4 and
    four bytes are left, so the estimate is not cut down; the loop over
    the lengths ends before its first lookup although the three bytes at
    position 0 are a key of the inverse map, and the decoder goes on to
    skip F2, 88 and 85 and returns the single byte 0x41.  With the same
    three bytes at the end of the input the estimate is cut down to 3,
    the lookup at length 3 is made and the byte 0x00 is decoded. *)
Theorem decode_estimate_four_no_retry :
  let input := [xf2; x88; x85; x41] in
  utf8_sequence_length (idx x00 input 0) = 4 /\
  clamped_length input 0 = 4 /\
  lookup_at init_tables input 0 3 = Some (x00, 3) /\
  match_lengths init_tables input 0 (Z.to_nat (clamped_length input 0)) = None /\
  (exists output, decode_data init_tables input = Returns output /\
                  buf_data output = [x41]) /\
  (exists output, decode_data init_tables [xf2; x88; x85] = Returns output /\
                  buf_data output = [x00]).
Proof.
  cbv zeta.
  split; [vm_compute; reflexivity|].
  split; [vm_compute; reflexivity|].
  split; [vm_compute; reflexivity|].
  split; [vm_compute; reflexivity|].
  split.
  - exists {| buf_data := [x41]; buf_capacity := 4 |}.
    split; [vm_compute; reflexivity|reflexivity].
  - exists {| buf_data := [x00]; buf_capacity := 3 |}.
    split; [vm_compute; reflexivity|reflexivity].
Qed.

(** C6. The decode hash separates the sequences of the table: for every
    byte value the entry of the decode table at the hash of its sequence
    is marked valid and holds that value; two byte values whose
    sequences have the same hash are equal; and when the builder writes
    the slot of a byte value, no earlier iteration has written it. *)
Theorem decode_table_inverts_hash :
  (forall b : byte,
     let e := entry init_tables b in
     let hash := utf8_hash (utf8_bytes e) (utf8_length e) in
     load false (decode_table_valid init_tables) hash = true /\
     load x00 (decode_table init_tables) hash = b) /\
  (forall b1 b2 : byte,
     utf8_hash (utf8_bytes (entry init_tables b1)) (utf8_length (entry init_tables b1)) =
     utf8_hash (utf8_bytes (entry init_tables b2)) (utf8_length (entry init_tables b2)) ->
     b1 = b2) /\
  (forall b : byte,
     let e := entry init_tables b in
     load false (snd (decode_state_before (Zb b)))
          (utf8_hash (utf8_bytes e) (utf8_length e)) = false).
Proof.
  split; [|split].
  - intros b. cbv zeta.
    split; [apply (entry_valid _ init_tables_ok)|apply init_entry_decoded].
  - intros b1 b2 E.
    rewrite <- (init_entry_decoded b1), <- (init_entry_decoded b2), E. reflexivity.
  - intros b. cbv zeta. pose proof (forall_bytes _ fresh_check_all b) as H.
    unfold fresh_check in H. cbv zeta in H. apply negb_true_iff in H. exact H.
Qed.

(** C7. Formatter boundary integrity: for group parameters of at least 1
    and every input buffer, whatever [format_output] returns on the
    encoder's output is the sequence of each input byte, whole and in
    order, with the separators (a space, or a space and a line feed)
    only between sequences; it is the text [formatted]. *)
Theorem format_separators_at_boundaries (B : list byte) (g n : Z) (output : buffer_t) :
  1 <= g <= INT_MAX -> 1 <= n <= INT_MAX ->
  encode_formatted init_tables B g n = Returns output ->
  buf_data output = formatted init_tables g n 0 B /\
  at_boundaries init_tables B (buf_data output).
Proof.
  intros Hg Hn. unfold encode_formatted.
  rewrite (encode_data_eq _ init_tables_ok), bind_returns.
  rewrite (format_output_eq _ init_tables_ok g n Hg Hn).
  destruct (size_div _ _) as [q2| | |]; try discriminate.
  rewrite bind_returns. intros H. apply buffer_append_inv in H as (Hd & _ & _).
  cbn [buf_data app] in Hd. rewrite Hd.
  split; [reflexivity|apply formatted_at_boundaries].
Qed.

Lemma format_separators_at_boundaries_witness :
  at_boundaries init_tables [x00; x41; x80]
                [xe2; x88; x85; x20; x41; x20; x0a; xc3; x80].
Proof.
  apply (format_separators_at_boundaries [x00; x41; x80] 1 2
           {| buf_data := [xe2; x88; x85; x20; x41; x20; x0a; xc3; x80];
              buf_capacity := 15 |}).
  - unfold INT_MAX. lia.
  - unfold INT_MAX. lia.
  - vm_compute. reflexivity.
Defined.

(** C8. Decoder resilience: for every pair of tables and every input
    buffer the decoder returns (it neither exits nor runs out of fuel)
    and its output is at most as long as its input. *)
Theorem decode_data_total (T : tables) (input : list byte) :
  exists output,
    decode_data T input = Returns output /\
    buf_size output <= Z.of_nat (length input).
Proof.
  unfold decode_data. apply decode_loop_returns.
  - lia.
  - lia.
  - unfold buf_size. rewrite buffer_init_data. simpl. lia.
  - apply buffer_init_capacity. lia.
Qed.

(** C9. Prefix freedom: the sequence of a byte value is not a prefix of
    the sequence of another byte value. *)
Theorem encode_table_prefix_free (b1 b2 : byte) :
  b1 <> b2 -> ~ sequence_of init_tables b1 `prefix_of` sequence_of init_tables b2.
Proof. intros Hne Hp. apply Hne, init_sequence_prefix, Hp. Qed.

Lemma encode_table_prefix_free_witness :
  xc3 <> x80 /\ ~ sequence_of init_tables xc3 `prefix_of` sequence_of init_tables x80.
Proof.
  split; [discriminate|]. apply (encode_table_prefix_free xc3 x80). discriminate.
Defined.

(** C10. The encoder's output holds no space, tab, line feed or
    carriage return: each of these four byte values has a curated
    override, no sequence of the table contains one of them, and the
    sanitizer returns the bytes of the encoder's output unchanged. *)
Theorem encode_output_no_whitespace :
  (forall c : byte, is_whitespace c = true -> curated (Zb c) = true) /\
  (forall b : byte, Forall (fun c => is_whitespace c = false) (sequence_of init_tables b)) /\
  (forall B : list byte,
     exists encoded cleaned,
       encode_data init_tables B = Returns encoded /\
       Forall (fun c => is_whitespace c = false) (buf_data encoded) /\
       clean_decode_input encoded = Returns cleaned /\
       buf_data cleaned = buf_data encoded).
Proof.
  assert (Hseq : forall b : byte,
             Forall (fun c => is_whitespace c = false) (sequence_of init_tables b)).
  { intros b. pose proof (entry_no_space _ init_tables_ok b) as H.
    apply List.Forall_forall. intros c Hc.
    rewrite forallb_forall in H. apply H in Hc. apply negb_true_iff, Hc. }
  assert (Henc : forall B : list byte,
             Forall (fun c => is_whitespace c = false) (encoding init_tables B)).
  { induction B as [|b B IH]; [constructor|].
    rewrite encoding_cons. apply List.Forall_app. split; [apply Hseq|exact IH]. }
  split; [|split; [exact Hseq|]].
  - intros c Hc. pose proof (forall_bytes _ whitespace_curated_all c) as H.
    cbv beta in H. rewrite Hc in H. exact H.
  - intros B. eexists. eexists.
    split; [apply (encode_data_eq _ init_tables_ok)|]. cbn [buf_data].
    split; [apply Henc|].
    split; [apply clean_decode_input_eq|]. cbn [buf_data].
    apply filter_printable_id. apply forallb_forall. intros c Hc.
    specialize (Henc B). rewrite List.Forall_forall in Henc. apply Henc in Hc.
    unfold printable. rewrite Hc. reflexivity.
Qed.

(** * Further properties *)

(** ** The sanitizer *)

Lemma filter_printable_no_space (l : list byte) :
  Forall (fun c => is_whitespace c = false) (List.filter printable l).
Proof.
  apply List.Forall_forall. intros c Hc. apply filter_In in Hc as [_ Hc].
  unfold printable in Hc. apply negb_true_iff, Hc.
Qed.

Lemma filter_printable_idem (l : list byte) :
  List.filter printable (List.filter printable l) = List.filter printable l.
Proof.
  apply filter_printable_id, forallb_forall. intros c Hc.
  apply filter_In in Hc as [_ Hc]. exact Hc.
Qed.

(** X1. The sanitizer returns for every input buffer; its output is the
    input without the bytes 0x20, 0x09, 0x0A and 0x0D, the other bytes
    in their order, and it is not longer than the input. *)
Theorem clean_decode_input_filters (input : buffer_t) :
  exists cleaned,
    clean_decode_input input = Returns cleaned /\
    buf_data cleaned = List.filter (fun c => negb (is_whitespace c)) (buf_data input) /\
    Forall (fun c => is_whitespace c = false) (buf_data cleaned) /\
    buf_size cleaned <= buf_size input.
Proof.
  eexists. split; [apply clean_decode_input_eq|]. cbn [buf_data].
  split; [reflexivity|]. split; [apply filter_printable_no_space|].
  unfold buf_size. cbn [buf_data].
  pose proof (filter_length_le printable (buf_data input)). lia.
Qed.

(** X2. Sanitizing is idempotent: the sanitizer returns its own output
    unchanged. *)
Theorem clean_decode_input_idempotent (input : buffer_t) :
  exists once twice,
    clean_decode_input input = Returns once /\
    clean_decode_input once = Returns twice /\
    buf_data twice = buf_data once.
Proof.
  eexists. eexists. split; [apply clean_decode_input_eq|].
  split; [apply clean_decode_input_eq|]. cbn [buf_data].
  apply filter_printable_idem.
Qed.

(** ** The encoder *)

Lemma encoding_app (T : tables) (A B : list byte) :
  encoding T (A ++ B) = encoding T A ++ encoding T B.
Proof. unfold encoding. apply flat_map_app. Qed.

(** X3. The encoder emits between one and three bytes per input byte
    and stays within the capacity it allocates. *)
Theorem encode_data_size (B : list byte) :
  exists encoded,
    encode_data init_tables B = Returns encoded /\
    Z.of_nat (length B) <= buf_size encoded <= 3 * Z.of_nat (length B) /\
    buf_size encoded <= buf_capacity encoded.
Proof.
  eexists. split; [apply (encode_data_eq _ init_tables_ok)|].
  unfold buf_size. cbn [buf_data buf_capacity].
  pose proof (encoding_length_le _ init_tables_ok B).
  pose proof (buffer_init_capacity (Z.of_nat (length B) * 3)). lia.
Qed.

(** X4. The encoder works byte by byte: the encoding of a concatenation
    is the concatenation of the encodings. *)
Theorem encode_data_app (A B : list byte) :
  exists ea eb eab,
    encode_data init_tables A = Returns ea /\
    encode_data init_tables B = Returns eb /\
    encode_data init_tables (A ++ B) = Returns eab /\
    buf_data eab = buf_data ea ++ buf_data eb.
Proof.
  eexists. eexists. eexists.
  split; [apply (encode_data_eq _ init_tables_ok)|].
  split; [apply (encode_data_eq _ init_tables_ok)|].
  split; [apply (encode_data_eq _ init_tables_ok)|].
  cbn [buf_data]. apply encoding_app.
Qed.

Lemma encoding_inj (A B : list byte) :
  encoding init_tables A = encoding init_tables B -> A = B.
Proof.
  intros E. pose proof (decode_data_encoding _ init_tables_ok A) as HA.
  pose proof (decode_data_encoding _ init_tables_ok B) as HB.
  rewrite E in HA. rewrite HA in HB. injection HB as HB. exact HB.
Qed.

(** X5. The encoder is injective: two inputs with the same encoded bytes
    are the same input. *)
Theorem encode_data_injective (A B : list byte) (ea eb : buffer_t) :
  encode_data init_tables A = Returns ea ->
  encode_data init_tables B = Returns eb ->
  buf_data ea = buf_data eb ->
  A = B.
Proof.
  rewrite !(encode_data_eq _ init_tables_ok). intros [= <-] [= <-].
  cbn [buf_data]. apply encoding_inj.
Qed.

Lemma encode_data_injective_witness : [x00; x41] = [x00; x41].
Proof.
  apply (encode_data_injective [x00; x41] [x00; x41]
           {| buf_data := [xe2; x88; x85; x41]; buf_capacity := 6 |}
           {| buf_data := [xe2; x88; x85; x41]; buf_capacity := 6 |}).
  - vm_compute. reflexivity.
  - vm_compute. reflexivity.
  - reflexivity.
Defined.

(** X6. Encode mode followed by decode mode: the sanitizer and the
    decoder, run on the buffer the encoder returns for [B], return [B]. *)
Theorem clean_and_decode_encoded (B : list byte) :
  exists encoded decoded_buf,
    encode_data init_tables B = Returns encoded /\
    clean_and_decode init_tables encoded = Returns decoded_buf /\
    buf_data decoded_buf = B.
Proof.
  eexists. eexists. split; [apply (encode_data_eq _ init_tables_ok)|].
  unfold clean_and_decode. rewrite clean_decode_input_eq, bind_returns.
  cbn [buf_data]. rewrite filter_printable_id.
  - split; [apply (decode_data_encoding _ init_tables_ok)|reflexivity].
  - induction B as [|b B IH]; [reflexivity|].
    rewrite encoding_cons, forallb_app, IH, andb_true_r.
    apply (entry_no_space _ init_tables_ok).
Qed.

(** ** The decoder as a function of its input *)

Lemma decoded_S (T : tables) (fuel : nat) (input : list byte) (i : Z) :
  decoded T (S fuel) input i =
  if i <? Z.of_nat (length input) then
    match match_lengths T input i (Z.to_nat (clamped_length input i)) with
    | Some (d, len) => d :: decoded T fuel input (i + len)
    | None => decoded T fuel input (i + 1)
    end
  else [].
Proof. reflexivity. Qed.

Lemma decoded_end (T : tables) (fuel : nat) (input : list byte) (i : Z) :
  Z.of_nat (length input) <= i -> decoded T fuel input i = [].
Proof.
  intros H. destruct fuel; simpl;
    destruct (Z.ltb_spec i (Z.of_nat (length input))); (lia || reflexivity).
Qed.

(** The loop appends to its buffer what [decoded] lists. *)
Lemma decode_loop_decoded (T : tables) (fuel : nat) (input : list byte) (i : Z)
    (output : buffer_t) :
  Z.of_nat (length input) - i <= Z.of_nat fuel ->
  buffer_wf output ->
  decode_loop T fuel input i output = buffer_append output (decoded T fuel input i).
Proof.
  revert i output. induction fuel as [|fuel IH]; intros i output Hfuel Hwf.
  - rewrite decode_loop_end, decoded_end by lia. symmetry.
    apply buffer_append_nil, Hwf.
  - rewrite decode_loop_S, decoded_S.
    destruct (Z.ltb_spec i (Z.of_nat (length input))) as [Hlt|Hge];
      [|symmetry; apply buffer_append_nil, Hwf].
    destruct (match_lengths T input i (Z.to_nat (clamped_length input i)))
      as [[d l]|] eqn:Em.
    + apply match_lengths_bounds in Em. unfold buffer_append_char.
      change (d :: decoded T fuel input (i + l))
        with ([d] ++ decoded T fuel input (i + l)).
      rewrite <- buffer_append_app. apply bind_append_ext. intros buf' Hb.
      apply IH; [lia|]. apply (buffer_append_inv _ _ _ Hb).
    + apply IH; [lia|exact Hwf].
Qed.

Lemma decoded_length (T : tables) (fuel : nat) (input : list byte) (i : Z) :
  Z.of_nat (length (decoded T fuel input i)) <= Z.max 0 (Z.of_nat (length input) - i).
Proof.
  revert i. induction fuel as [|fuel IH]; intros i.
  - simpl. destruct (i <? Z.of_nat (length input)); simpl; lia.
  - rewrite decoded_S.
    destruct (Z.ltb_spec i (Z.of_nat (length input))) as [Hlt|Hge]; [|simpl; lia].
    destruct (match_lengths T input i (Z.to_nat (clamped_length input i)))
      as [[d l]|] eqn:Em.
    + apply match_lengths_bounds in Em. specialize (IH (i + l)).
      simpl length. lia.
    + specialize (IH (i + 1)). lia.
Qed.

Lemma decode_data_decoded (T : tables) (input : list byte) :
  decode_data T input =
  Returns {| buf_data := decoded T (length input) input 0;
             buf_capacity := buf_capacity (buffer_init (Z.of_nat (length input))) |}.
Proof.
  unfold decode_data.
  rewrite decode_loop_decoded by (try apply buffer_init_wf; lia).
  rewrite buffer_append_returns; [reflexivity|].
  pose proof (decoded_length T (length input) input 0).
  pose proof (buffer_init_capacity (Z.of_nat (length input))).
  unfold buf_size. rewrite buffer_init_data. simpl length. lia.
Qed.

(** Fuel beyond the length of what is left changes nothing. *)
Lemma decoded_more_fuel (T : tables) (fuel fuel' : nat) (input : list byte) (i : Z) :
  Z.of_nat (length input) - i <= Z.of_nat fuel -> (fuel <= fuel')%nat ->
  decoded T fuel' input i = decoded T fuel input i.
Proof.
  revert fuel' i. induction fuel as [|fuel IH]; intros fuel' i Hfuel Hle.
  - rewrite !decoded_end by lia. reflexivity.
  - destruct fuel' as [|fuel']; [lia|]. rewrite !decoded_S.
    destruct (Z.ltb_spec i (Z.of_nat (length input))) as [Hlt|Hge]; [|reflexivity].
    destruct (match_lengths T input i (Z.to_nat (clamped_length input i)))
      as [[d l]|] eqn:Em.
    + apply match_lengths_bounds in Em. f_equal. apply IH; lia.
    + apply IH; lia.
Qed.

(** The decoder looks at the input from its position on only. *)
Lemma match_lengths_shift (T : tables) (pre rest : list byte) (i : Z) (len : nat) :
  0 <= i ->
  match_lengths T (pre ++ rest) (Z.of_nat (length pre) + i) len =
  match_lengths T rest i len.
Proof.
  intros Hi. induction len as [|len IH]; [reflexivity|].
  rewrite !match_lengths_S, IH. rewrite length_app.
  replace (drop (Z.to_nat (Z.of_nat (length pre) + i)) (pre ++ rest))
    with (drop (Z.to_nat i) rest).
  - destruct (Z.of_nat (S len) <=? 3); [|reflexivity].
    destruct (Z.leb_spec (i + Z.of_nat (S len)) (Z.of_nat (length rest)));
      destruct (Z.leb_spec (Z.of_nat (length pre) + i + Z.of_nat (S len))
                           (Z.of_nat (length pre + length rest)));
      (lia || reflexivity).
  - replace (Z.to_nat (Z.of_nat (length pre) + i))
      with (length pre + Z.to_nat i)%nat by lia.
    rewrite <- drop_drop, drop_app_length. reflexivity.
Qed.

Lemma clamped_length_shift (pre rest : list byte) (i : Z) :
  0 <= i ->
  clamped_length (pre ++ rest) (Z.of_nat (length pre) + i) = clamped_length rest i.
Proof.
  intros Hi. unfold clamped_length. rewrite idx_app_r by exact Hi.
  rewrite length_app.
  destruct (Z.gtb_spec (i + utf8_sequence_length (idx x00 rest i))
                       (Z.of_nat (length rest)));
    destruct (Z.gtb_spec (Z.of_nat (length pre) + i
                          + utf8_sequence_length (idx x00 rest i))
                         (Z.of_nat (length pre + length rest))); try lia.
  do 2 f_equal. lia.
Qed.

Lemma decoded_shift (T : tables) (fuel : nat) (pre rest : list byte) (i : Z) :
  0 <= i ->
  decoded T fuel (pre ++ rest) (Z.of_nat (length pre) + i) = decoded T fuel rest i.
Proof.
  revert i. induction fuel as [|fuel IH]; intros i Hi.
  - simpl. rewrite length_app.
    destruct (Z.ltb_spec (Z.of_nat (length pre) + i)
                         (Z.of_nat (length pre + length rest)));
      destruct (Z.ltb_spec i (Z.of_nat (length rest))); (lia || reflexivity).
  - rewrite !decoded_S, clamped_length_shift, match_lengths_shift by exact Hi.
    rewrite length_app.
    destruct (Z.ltb_spec (Z.of_nat (length pre) + i)
                         (Z.of_nat (length pre + length rest)));
      destruct (Z.ltb_spec i (Z.of_nat (length rest))); try lia; [|reflexivity].
    destruct (match_lengths T rest i (Z.to_nat (clamped_length rest i)))
      as [[d l]|] eqn:Em.
    + apply match_lengths_bounds in Em. rewrite <- Z.add_assoc, IH by lia.
      reflexivity.
    + rewrite <- Z.add_assoc, IH by lia. reflexivity.
Qed.

Lemma decoded_sequence (T : tables) (HT : table_ok T) (fuel : nat)
    (pre rest : list byte) (b : byte) :
  decoded T (S fuel) (pre ++ sequence_of T b ++ rest) (Z.of_nat (length pre)) =
  b :: decoded T fuel (pre ++ sequence_of T b ++ rest)
                 (Z.of_nat (length (pre ++ sequence_of T b))).
Proof.
  pose proof (sequence_length T HT b) as Hl. pose proof (entry_length T HT b) as Hr.
  rewrite decoded_S.
  destruct (Z.ltb_spec (Z.of_nat (length pre))
              (Z.of_nat (length (pre ++ sequence_of T b ++ rest)))) as [_|Hge];
    [|rewrite !length_app in Hge; lia].
  rewrite (clamped_length_sequence T HT), (match_lengths_sequence T HT).
  rewrite (length_app pre). do 2 f_equal. lia.
Qed.

Lemma decoded_encoding_then (T : tables) (HT : table_ok T) (A pre rest : list byte)
    (fuel : nat) :
  decoded T (length A + fuel) (pre ++ encoding T A ++ rest) (Z.of_nat (length pre)) =
  A ++ decoded T fuel (pre ++ encoding T A ++ rest)
                 (Z.of_nat (length (pre ++ encoding T A))).
Proof.
  revert pre. induction A as [|b A IH]; intros pre.
  - simpl. rewrite app_nil_r. reflexivity.
  - rewrite encoding_cons, <- app_assoc. simpl length at 1. simpl Nat.add.
    rewrite (decoded_sequence T HT). rewrite (app_assoc pre (sequence_of T b)).
    rewrite IH. rewrite <- !app_assoc. reflexivity.
Qed.

(** X7. Encoded text followed by any bytes: the decoder returns the
    encoded bytes and then what it returns for the bytes that follow,
    as if it were started on them. *)
Theorem decode_data_encoded_prefix (A rest : list byte) :
  exists encoded whole tail,
    encode_data init_tables A = Returns encoded /\
    decode_data init_tables (buf_data encoded ++ rest) = Returns whole /\
    decode_data init_tables rest = Returns tail /\
    buf_data whole = A ++ buf_data tail.
Proof.
  eexists. eexists. eexists.
  split; [apply (encode_data_eq _ init_tables_ok)|]. cbn [buf_data].
  split; [apply decode_data_decoded|]. split; [apply decode_data_decoded|].
  cbn [buf_data].
  pose proof (encoding_length_le _ init_tables_ok A) as [Hle _].
  replace (length (encoding init_tables A ++ rest))
    with (length A + (length (encoding init_tables A) - length A + length rest))%nat
    by (rewrite length_app; lia).
  pose proof (decoded_encoding_then _ init_tables_ok A [] rest) as H.
  cbn [app length] in H. change (Z.of_nat 0) with 0 in H. rewrite H. f_equal.
  rewrite <- (Z.add_0_r (Z.of_nat (length (encoding init_tables A)))).
  rewrite decoded_shift by lia. apply decoded_more_fuel; lia.
Qed.

(** A byte below 0x80 that is no key of the inverse map is skipped. *)
Lemma decoded_skip (T : tables) (fuel : nat) (pre rest : list byte) (c : byte) :
  Zb c < 128 ->
  load false (decode_table_valid T) (Zb c) = false ->
  decoded T (S fuel) (pre ++ c :: rest) (Z.of_nat (length pre)) =
  decoded T fuel (pre ++ c :: rest) (Z.of_nat (length (pre ++ [c]))).
Proof.
  intros Hc Hinvalid. rewrite decoded_S.
  destruct (Z.ltb_spec (Z.of_nat (length pre)) (Z.of_nat (length (pre ++ c :: rest))))
    as [_|Hge]; [|rewrite length_app in Hge; simpl length in Hge; lia].
  assert (Ec : idx x00 (pre ++ c :: rest) (Z.of_nat (length pre)) = c).
  { rewrite <- (Z.add_0_r (Z.of_nat (length pre))), idx_app_r by lia. reflexivity. }
  assert (El : clamped_length (pre ++ c :: rest) (Z.of_nat (length pre)) = 1).
  { unfold clamped_length. rewrite Ec. unfold utf8_sequence_length.
    destruct (Z.ltb_spec (Zb c) 128); [|lia].
    destruct (Z.gtb_spec (Z.of_nat (length pre) + 1)
                (Z.of_nat (length (pre ++ c :: rest)))) as [Hgt|_]; [|reflexivity].
    rewrite length_app in Hgt. simpl length in Hgt. lia. }
  rewrite El. change (Z.to_nat 1) with 1%nat.
  destruct (match_lengths_retries T (pre ++ c :: rest) (Z.of_nat (length pre)))
    as (_ & _ & ->).
  unfold lookup_at.
  destruct (Z.leb_spec (Z.of_nat (length pre) + 1)
              (Z.of_nat (length (pre ++ c :: rest)))) as [_|Hgt];
    [|rewrite length_app in Hgt; simpl length in Hgt; lia].
  cbv zeta. rewrite drop_app_at.
  replace (utf8_hash (c :: rest) 1) with (Zb c).
  - rewrite Hinvalid. rewrite length_app. simpl length.
    replace (Z.of_nat (length pre + 1)) with (Z.of_nat (length pre) + 1) by lia.
    reflexivity.
  - unfold utf8_hash, u16. change (1 =? 1) with true. cbv iota.
    rewrite idx_cons_0. pose proof (Zb_range c). rewrite Z.mod_small by lia.
    reflexivity.
Qed.

Lemma init_space_invalid :
  load false (decode_table_valid init_tables) (Zb x20) = false /\
  load false (decode_table_valid init_tables) (Zb x0a) = false.
Proof. split; vm_compute; reflexivity. Qed.

(** The decoder reads through the separators of the formatter. *)
Lemma decoded_formatted (g n : Z) (B pre : list byte) (cc : Z) (fuel : nat) :
  (length (formatted init_tables g n cc B) <= fuel)%nat ->
  decoded init_tables fuel (pre ++ formatted init_tables g n cc B)
          (Z.of_nat (length pre)) = B.
Proof.
  destruct init_space_invalid as [Hsp Hlf].
  revert pre cc fuel. induction B as [|b B IH]; intros pre cc fuel Hfuel.
  - apply decoded_end. simpl. rewrite app_nil_r. lia.
  - pose proof (sequence_length _ init_tables_ok b) as Hl.
    pose proof (entry_length _ init_tables_ok b) as Hr.
    simpl formatted in *. rewrite !length_app in Hfuel.
    destruct fuel as [|fuel]; [lia|].
    rewrite (decoded_sequence _ init_tables_ok). f_equal.
    rewrite (app_assoc pre).
    set (pre1 := pre ++ sequence_of init_tables b).
    destruct (separator_is_separator g n (cc + 1) (nonempty B)) as [E|[E|E]];
      rewrite E in *; clear E; simpl length in Hfuel.
    + apply IH. lia.
    + destruct fuel as [|fuel]; [lia|].
      change ([x20] ++ formatted init_tables g n (cc + 1) B)
        with (x20 :: formatted init_tables g n (cc + 1) B).
      rewrite decoded_skip by (exact Hsp || (vm_compute; reflexivity)).
      change (x20 :: formatted init_tables g n (cc + 1) B)
        with ([x20] ++ formatted init_tables g n (cc + 1) B).
      rewrite (app_assoc pre1). apply IH. lia.
    + destruct fuel as [|fuel]; [lia|]. destruct fuel as [|fuel]; [lia|].
      change ([x20; x0a] ++ formatted init_tables g n (cc + 1) B)
        with (x20 :: x0a :: formatted init_tables g n (cc + 1) B).
      rewrite decoded_skip by (exact Hsp || (vm_compute; reflexivity)).
      change (x20 :: x0a :: formatted init_tables g n (cc + 1) B)
        with ([x20] ++ x0a :: formatted init_tables g n (cc + 1) B).
      rewrite (app_assoc pre1).
      rewrite decoded_skip by (exact Hlf || (vm_compute; reflexivity)).
      change (x0a :: formatted init_tables g n (cc + 1) B)
        with ([x0a] ++ formatted init_tables g n (cc + 1) B).
      rewrite (app_assoc (pre1 ++ [x20])). apply IH. lia.
Qed.

(** What [encode_formatted] returns when the product of the group
    parameters is an [int]. *)
Lemma encode_formatted_in_range (B : list byte) (g n : Z) :
  1 <= g -> 1 <= n -> g * n <= INT_MAX ->
  exists capacity,
    encode_formatted init_tables B g n =
    Returns {| buf_data := formatted init_tables g n 0 B; buf_capacity := capacity |}.
Proof.
  intros Hg Hn Hgn.
  assert (Hg' : 1 <= g <= INT_MAX) by nia.
  assert (Hn' : 1 <= n <= INT_MAX) by nia.
  unfold encode_formatted.
  rewrite (encode_data_eq _ init_tables_ok), bind_returns.
  rewrite (format_output_eq _ init_tables_ok g n Hg' Hn').
  rewrite wrap_int_small, size_of_int_small by nia.
  rewrite size_div_nonzero, bind_returns by nia.
  rewrite buffer_append_returns; [eexists; reflexivity|].
  pose proof (formatted_fits _ init_tables_ok g n Hg' Hn' B) as Hfit.
  cbv zeta in Hfit. unfold buf_size. cbn [buf_data buf_capacity length].
  match goal with |- context [buffer_init ?c] =>
    pose proof (buffer_init_capacity c) as Hcap end.
  assert (0 <= Z.of_nat (length (encoding init_tables B)) / g)
    by (apply Z.div_pos; lia).
  assert (0 <= Z.of_nat (length (encoding init_tables B)) / (g * n))
    by (apply Z.div_pos; nia).
  lia.
Qed.

(** X8. The decoder needs no sanitizer on formatted text: run directly
    on what the formatter returns for the encoding of [B], spaces and
    line feeds included, it returns [B]. *)
Theorem decode_data_formatted (B : list byte) (g n : Z) :
  1 <= g -> 1 <= n -> g * n <= INT_MAX ->
  exists text decoded_buf,
    encode_formatted init_tables B g n = Returns text /\
    decode_data init_tables (buf_data text) = Returns decoded_buf /\
    buf_data decoded_buf = B.
Proof.
  intros Hg Hn Hgn.
  destruct (encode_formatted_in_range B g n Hg Hn Hgn) as [capacity E].
  eexists. eexists. split; [exact E|]. cbn [buf_data].
  split; [apply decode_data_decoded|]. cbn [buf_data].
  apply (decoded_formatted g n B [] 0). lia.
Qed.

Lemma decode_data_formatted_witness :
  exists text decoded_buf,
    encode_formatted init_tables [x00; x41; x80] 1 2 = Returns text /\
    decode_data init_tables (buf_data text) = Returns decoded_buf /\
    buf_data decoded_buf = [x00; x41; x80].
Proof.
  apply (decode_data_formatted [x00; x41; x80] 1 2); unfold INT_MAX; lia.
Defined.

(** ** The formatter on arbitrary input *)

Lemma format_text_S (fuel : nat) (input : list byte) (g n cc i : Z) :
  format_text (S fuel) input g n cc i =
  if i <? Z.of_nat (length input) then
    take (Z.to_nat (utf8_sequence_length (idx x00 input i))) (drop (Z.to_nat i) input)
    ++ separator g n (cc + 1)
         (i + utf8_sequence_length (idx x00 input i) <? Z.of_nat (length input))
    ++ format_text fuel input g n (cc + 1) (i + utf8_sequence_length (idx x00 input i))
  else [].
Proof. reflexivity. Qed.

Lemma format_text_end (fuel : nat) (input : list byte) (g n cc i : Z) :
  Z.of_nat (length input) <= i -> format_text fuel input g n cc i = [].
Proof.
  intros H. destruct fuel; simpl;
    destruct (Z.ltb_spec i (Z.of_nat (length input))); (lia || reflexivity).
Qed.

Lemma utf8_sequence_length_range (c : byte) : 1 <= utf8_sequence_length c <= 4.
Proof.
  unfold utf8_sequence_length.
  repeat match goal with |- context [if ?b then _ else _] => destruct b end; lia.
Qed.

Lemma drop_idx (input : list byte) (k : nat) :
  (k < length input)%nat ->
  drop k input = idx x00 input (Z.of_nat k) :: drop (S k) input.
Proof.
  intros Hk. unfold idx. destruct (Z.ltb_spec (Z.of_nat k) 0); [lia|].
  rewrite Nat2Z.id. destruct (lookup_lt_is_Some_2 input k Hk) as [x Hx].
  rewrite Hx. simpl. apply drop_S, Hx.
Qed.

(** The inner loop copies the bytes of the unit that the input still
    holds. *)
Lemma copy_character_take (input : list byte) (i j : Z) (left : nat)
    (output : buffer_t) :
  0 <= i -> 0 <= j -> buffer_wf output ->
  copy_character input i j left output =
  buffer_append output (take left (drop (Z.to_nat (i + j)) input)).
Proof.
  intros Hi. revert j output. induction left as [|left IH]; intros j output Hj Hwf.
  - simpl. symmetry. apply buffer_append_nil, Hwf.
  - rewrite copy_character_S.
    destruct (Z.ltb_spec (i + j) (Z.of_nat (length input))) as [Hlt|Hge].
    + rewrite (drop_idx input (Z.to_nat (i + j))) by lia.
      rewrite Z2Nat.id by lia. rewrite firstn_cons.
      unfold buffer_append_char.
      change (idx x00 input (i + j) :: take left (drop (S (Z.to_nat (i + j))) input))
        with ([idx x00 input (i + j)] ++ take left (drop (S (Z.to_nat (i + j))) input)).
      rewrite <- buffer_append_app. apply bind_append_ext. intros buf' Hb.
      rewrite IH; [|lia|apply (buffer_append_inv _ _ _ Hb)].
      do 3 f_equal. lia.
    + rewrite drop_ge by lia. rewrite take_nil. symmetry.
      apply buffer_append_nil, Hwf.
Qed.

Section FormatAnyInput.

Context (g n : Z) (Hg : 1 <= g <= INT_MAX) (Hn : 1 <= n <= INT_MAX).

(** The loop appends to its buffer what [format_text] lists. *)
Lemma format_loop_text (fuel : nat) (input : list byte) (cc i : Z) (output : buffer_t) :
  0 <= i -> Z.of_nat (length input) - i <= Z.of_nat fuel -> buffer_wf output ->
  format_loop fuel input g n cc i output =
  buffer_append output (format_text fuel input g n cc i).
Proof.
  revert cc i output. induction fuel as [|fuel IH]; intros cc i output Hi Hfuel Hwf.
  - rewrite format_loop_end, format_text_end by lia. symmetry.
    apply buffer_append_nil, Hwf.
  - rewrite format_loop_S, format_text_S.
    destruct (Z.ltb_spec i (Z.of_nat (length input))) as [Hlt|Hge];
      [|symmetry; apply buffer_append_nil, Hwf].
    pose proof (utf8_sequence_length_range (idx x00 input i)) as Hlen.
    rewrite copy_character_take by (lia || exact Hwf). rewrite Z.add_0_r.
    rewrite <- buffer_append_app. apply bind_append_ext. intros buf1 Hb1.
    apply buffer_append_inv in Hb1 as (_ & _ & Hwf1).
    rewrite add_spacing_eq by assumption.
    rewrite <- buffer_append_app. apply bind_append_ext. intros buf2 Hb2.
    apply buffer_append_inv in Hb2 as (_ & _ & Hwf2).
    apply IH; [lia|lia|exact Hwf2].
Qed.

(** The text is the input with white space added. *)
Lemma filter_format_text (fuel : nat) (input : list byte) (cc i : Z) :
  0 <= i -> Z.of_nat (length input) - i <= Z.of_nat fuel ->
  List.filter printable (format_text fuel input g n cc i) =
  List.filter printable (drop (Z.to_nat i) input).
Proof.
  revert cc i. induction fuel as [|fuel IH]; intros cc i Hi Hfuel.
  - rewrite format_text_end by lia. rewrite drop_ge by lia. reflexivity.
  - rewrite format_text_S.
    destruct (Z.ltb_spec i (Z.of_nat (length input))) as [Hlt|Hge];
      [|rewrite drop_ge by lia; reflexivity].
    pose proof (utf8_sequence_length_range (idx x00 input i)) as Hlen.
    rewrite !List.filter_app, filter_separator, IH by lia. cbn [app].
    rewrite <- List.filter_app. f_equal.
    replace (Z.to_nat (i + utf8_sequence_length (idx x00 input i)))
      with (Z.to_nat i + Z.to_nat (utf8_sequence_length (idx x00 input i)))%nat by lia.
    rewrite <- drop_drop. apply take_drop.
Qed.

Lemma format_text_length (fuel : nat) (input : list byte) (cc i : Z) :
  0 <= i -> 0 <= cc ->
  let left := Z.max 0 (Z.of_nat (length input) - i) in
  Z.of_nat (length (format_text fuel input g n cc i)) <=
  left + ((cc + left) / g - cc / g) + ((cc + left) / (g * n) - cc / (g * n)).
Proof.
  assert (Hgn : 1 <= g * n) by nia.
  revert cc i. induction fuel as [|fuel IH]; intros cc i Hi Hcc left.
  - pose proof (Z.div_le_mono cc (cc + left) g ltac:(lia) ltac:(lia)).
    pose proof (Z.div_le_mono cc (cc + left) (g * n) ltac:(lia) ltac:(lia)).
    simpl. destruct (i <? Z.of_nat (length input)); simpl; lia.
  - pose proof (Z.div_le_mono cc (cc + left) g ltac:(lia) ltac:(lia)).
    pose proof (Z.div_le_mono cc (cc + left) (g * n) ltac:(lia) ltac:(lia)).
    rewrite format_text_S.
    destruct (Z.ltb_spec i (Z.of_nat (length input))) as [Hlt|Hge]; [|simpl; lia].
    pose proof (utf8_sequence_length_range (idx x00 input i)) as Hlen.
    set (char_len := utf8_sequence_length (idx x00 input i)) in *.
    rewrite !length_app, length_take, length_drop.
    pose proof (IH (cc + 1) (i + char_len) ltac:(lia) ltac:(lia)) as IH'.
    cbv zeta in IH'.
    set (left' := Z.max 0 (Z.of_nat (length input) - (i + char_len))) in *.
    pose proof (separator_length g n cc (i + char_len <? Z.of_nat (length input))
                  ltac:(lia) ltac:(lia) Hcc) as Hsep.
    assert (Hleft : left' + 1 <= left) by (unfold left, left'; lia).
    pose proof (Z.div_le_mono (cc + 1 + left') (cc + left) g ltac:(lia) ltac:(lia)).
    pose proof (Z.div_le_mono (cc + 1 + left') (cc + left) (g * n) ltac:(lia) ltac:(lia)).
    assert (Z.of_nat (Init.Nat.min (Z.to_nat char_len) (length input - Z.to_nat i))
            + left' = left) by (unfold left, left'; lia).
    lia.
Qed.

End FormatAnyInput.

Lemma separator_no_more (g n cc : Z) : separator g n cc false = [].
Proof. unfold separator. rewrite andb_false_r. reflexivity. Qed.

Lemma last_drop_lt (l : list byte) (k : nat) :
  (k < length l)%nat -> last (drop k l) = last l.
Proof.
  intros Hk. rewrite <- (take_drop k l) at 2. rewrite last_app.
  destruct (last (drop k l)) eqn:E; [reflexivity|].
  apply last_None in E. apply (f_equal length) in E.
  rewrite length_drop in E. simpl in E. lia.
Qed.

Lemma format_text_last (g n : Z) (fuel : nat) (input : list byte) (cc i : Z) :
  0 <= i < Z.of_nat (length input) ->
  Z.of_nat (length input) - i <= Z.of_nat fuel ->
  last (format_text fuel input g n cc i) = last input.
Proof.
  revert cc i. induction fuel as [|fuel IH]; intros cc i Hi Hfuel; [lia|].
  rewrite format_text_S.
  destruct (Z.ltb_spec i (Z.of_nat (length input))) as [_|?]; [|lia].
  pose proof (utf8_sequence_length_range (idx x00 input i)) as Hlen.
  set (char_len := utf8_sequence_length (idx x00 input i)) in *.
  destruct (Z.ltb_spec (i + char_len) (Z.of_nat (length input))) as [Hmore|Hend].
  - rewrite !last_app, IH by lia.
    destruct (last input) eqn:E; [reflexivity|].
    apply last_None in E. rewrite E in Hi. simpl in Hi. lia.
  - rewrite separator_no_more, format_text_end by lia. rewrite !app_nil_r.
    rewrite take_ge by (rewrite length_drop; lia).
    apply last_drop_lt. lia.
Qed.

(** What [format_output] returns for any buffer when the product of the
    group parameters is an [int]. *)
Lemma format_output_in_range (input : buffer_t) (g n : Z) :
  1 <= g -> 1 <= n -> g * n <= INT_MAX ->
  format_output input g n =
  Returns {| buf_data :=
               format_text (length (buf_data input)) (buf_data input) g n 0 0;
             buf_capacity :=
               buf_capacity (buffer_init (buf_size input + buf_size input / g
                                          + buf_size input / (g * n))) |}.
Proof.
  intros Hg Hn Hgn.
  assert (Hg' : 1 <= g <= INT_MAX) by nia.
  assert (Hn' : 1 <= n <= INT_MAX) by nia.
  assert (Hsize : 0 <= buf_size input) by (unfold buf_size; lia).
  assert (0 <= buf_size input / g) by (apply Z.div_pos; lia).
  assert (0 <= buf_size input / (g * n)) by (apply Z.div_pos; nia).
  unfold format_output.
  rewrite wrap_int_small, !size_of_int_small by nia.
  rewrite !size_div_nonzero, !bind_returns by nia.
  rewrite (format_loop_text g n Hg' Hn') by (try apply buffer_init_wf; lia).
  rewrite buffer_append_returns; [reflexivity|].
  pose proof (format_text_length g n Hg' Hn' (length (buf_data input))
                (buf_data input) 0 0 ltac:(lia) ltac:(lia)) as Hfit.
  cbv zeta in Hfit. rewrite !Z.add_0_l, !Zdiv_0_l, Z.sub_0_r in Hfit.
  fold (buf_size input) in Hfit. rewrite Z.max_r in Hfit by lia.
  match goal with |- context [buffer_init ?c] =>
    pose proof (buffer_init_capacity c) as Hcap end.
  unfold buf_size at 1. rewrite buffer_init_data. simpl length. lia.
Qed.

(** X10. For group parameters of at least 1 whose product is an [int],
    the formatter returns on every input buffer, encoder output or not:
    its size estimate is never exceeded, and the text is at most
    [size + size / g + size / (g * n)] bytes long. *)
Theorem format_output_returns (input : buffer_t) (g n : Z) :
  1 <= g -> 1 <= n -> g * n <= INT_MAX ->
  exists text,
    format_output input g n = Returns text /\
    buf_size text <=
      buf_size input + buf_size input / g + buf_size input / (g * n).
Proof.
  intros Hg Hn Hgn. eexists. split; [apply format_output_in_range; assumption|].
  assert (Hg' : 1 <= g <= INT_MAX) by nia.
  assert (Hn' : 1 <= n <= INT_MAX) by nia.
  pose proof (format_text_length g n Hg' Hn' (length (buf_data input))
                (buf_data input) 0 0 ltac:(lia) ltac:(lia)) as Hfit.
  cbv zeta in Hfit. rewrite !Z.add_0_l, !Zdiv_0_l, Z.sub_0_r in Hfit.
  fold (buf_size input) in Hfit.
  rewrite Z.max_r in Hfit by (unfold buf_size; lia).
  unfold buf_size at 1. cbn [buf_data]. lia.
Qed.

Lemma format_output_returns_witness :
  exists text,
    format_output {| buf_data := [xf0; x41; xc3]; buf_capacity := 3 |} 2 3
    = Returns text /\
    buf_size text <= 3 + 3 / 2 + 3 / (2 * 3).
Proof.
  apply (format_output_returns {| buf_data := [xf0; x41; xc3]; buf_capacity := 3 |} 2 3);
    unfold INT_MAX; lia.
Defined.

(** X11. The formatter adds white space and nothing else, on every
    input buffer: the sanitizer returns the same bytes for the formatted
    text as for the input. *)
Theorem clean_formatted_any_input (input : buffer_t) (g n : Z) :
  1 <= g -> 1 <= n -> g * n <= INT_MAX ->
  exists text cleaned_text cleaned_input,
    format_output input g n = Returns text /\
    clean_decode_input text = Returns cleaned_text /\
    clean_decode_input input = Returns cleaned_input /\
    buf_data cleaned_text = buf_data cleaned_input.
Proof.
  intros Hg Hn Hgn. eexists. eexists. eexists.
  split; [apply format_output_in_range; assumption|].
  split; [apply clean_decode_input_eq|]. split; [apply clean_decode_input_eq|].
  cbn [buf_data].
  rewrite (filter_format_text g n) by lia. reflexivity.
Qed.

Lemma clean_formatted_any_input_witness :
  exists text cleaned_text cleaned_input,
    format_output {| buf_data := [xf0; x20; x41; xc3]; buf_capacity := 4 |} 1 1
    = Returns text /\
    clean_decode_input text = Returns cleaned_text /\
    clean_decode_input {| buf_data := [xf0; x20; x41; xc3]; buf_capacity := 4 |}
    = Returns cleaned_input /\
    buf_data cleaned_text = buf_data cleaned_input.
Proof.
  apply (clean_formatted_any_input
           {| buf_data := [xf0; x20; x41; xc3]; buf_capacity := 4 |} 1 1);
    unfold INT_MAX; lia.
Defined.

(** X12. No trailing separator: on every input buffer the formatted text
    ends with the last byte of the input (and is empty for the empty
    input). *)
Theorem format_output_no_trailing_separator (input : buffer_t) (g n : Z) :
  1 <= g -> 1 <= n -> g * n <= INT_MAX ->
  exists text,
    format_output input g n = Returns text /\
    last (buf_data text) = last (buf_data input).
Proof.
  intros Hg Hn Hgn. eexists. split; [apply format_output_in_range; assumption|].
  cbn [buf_data]. destruct (buf_data input) as [|c l] eqn:E; [reflexivity|].
  apply format_text_last; simpl length; lia.
Qed.

Lemma format_output_no_trailing_separator_witness :
  exists text,
    format_output {| buf_data := [x41; x42; x43; x44]; buf_capacity := 4 |} 2 1
    = Returns text /\
    last (buf_data text) = last [x41; x42; x43; x44].
Proof.
  apply (format_output_no_trailing_separator
           {| buf_data := [x41; x42; x43; x44]; buf_capacity := 4 |} 2 1);
    unfold INT_MAX; lia.
Defined.

Lemma format_round_trip_in_range_witness :
  exists formatted_text decoded_buf,
    encode_formatted init_tables [x00; x20; xff] 1 1 = Returns formatted_text /\
    clean_and_decode init_tables formatted_text = Returns decoded_buf /\
    buf_data decoded_buf = [x00; x20; xff].
Proof.
  apply (format_round_trip_in_range [x00; x20; xff] 1 1); unfold INT_MAX; lia.
Defined.

(** ** The decode hash *)

Lemma lor_shiftl_8 (x y : Z) : 0 <= y < 256 -> Z.lor (Z.shiftl x 8) y = x * 256 + y.
Proof.
  intros Hy. rewrite <- Z.add_nocarry_lor.
  - rewrite Z.shiftl_mul_pow2 by lia. reflexivity.
  - apply Z.bits_inj'. intros k Hk. rewrite Z.land_spec, Z.bits_0.
    destruct (Z.lt_ge_cases k 8) as [Hlow|Hhigh].
    + rewrite Z.shiftl_spec_low by lia. reflexivity.
    + destruct (Z.eq_dec y 0) as [->|Hne]; [rewrite Z.bits_0; apply andb_false_r|].
      rewrite (Z.bits_above_log2 y k); [apply andb_false_r|lia|].
      assert (Z.log2 y < 8) by (apply Z.log2_lt_pow2; lia). lia.
Qed.

(** X14. Keys of one and of two bytes are hashed exactly: two texts of
    one byte, or of two bytes, with the same hash are the same text. *)
Theorem utf8_hash_exact_short :
  (forall a c : byte, utf8_hash [a] 1 = utf8_hash [c] 1 -> a = c) /\
  (forall a b c d : byte,
     utf8_hash [a; b] 2 = utf8_hash [c; d] 2 -> a = c /\ b = d).
Proof.
  split.
  - intros a c. unfold utf8_hash, u16. simpl.
    pose proof (Zb_range a). pose proof (Zb_range c).
    rewrite !idx_cons_0. rewrite !Z.mod_small by lia. apply Zb_inj.
  - intros a b c d. unfold utf8_hash, u16. simpl.
    pose proof (Zb_range a). pose proof (Zb_range b).
    pose proof (Zb_range c). pose proof (Zb_range d).
    change (idx x00 [a; b] 0) with a. change (idx x00 [a; b] 1) with b.
    change (idx x00 [c; d] 0) with c. change (idx x00 [c; d] 1) with d.
    rewrite !lor_shiftl_8 by assumption. rewrite !Z.mod_small by lia.
    intros E. split; apply Zb_inj; lia.
Qed.

(** X15. The decoder accepts texts the encoder never writes: three
    bytes whose first is in 0xE0..0xEF and whose hash is the hash of the
    table entry of [b] decode to [b], whatever their other bits. *)
Theorem decode_data_accepts_hash_alias (b c0 c1 c2 : byte) :
  224 <= Zb c0 < 240 ->
  utf8_hash [c0; c1; c2] 3 =
  utf8_hash (utf8_bytes (entry init_tables b)) (utf8_length (entry init_tables b)) ->
  exists output,
    decode_data init_tables [c0; c1; c2] = Returns output /\
    buf_data output = [b].
Proof.
  intros Hc0 Hhash. eexists. split; [apply decode_data_decoded|]. cbn [buf_data].
  change (length [c0; c1; c2]) with 3%nat. rewrite decoded_S.
  change (0 <? Z.of_nat (length [c0; c1; c2])) with true. cbv iota.
  assert (El : clamped_length [c0; c1; c2] 0 = 3).
  { unfold clamped_length, utf8_sequence_length. rewrite idx_cons_0.
    destruct (Z.ltb_spec (Zb c0) 128); [lia|].
    destruct (Z.ltb_spec (Zb c0) 224); [lia|].
    destruct (Z.ltb_spec (Zb c0) 240); [|lia]. reflexivity. }
  rewrite El. change (Z.to_nat 3) with 3%nat.
  destruct (match_lengths_retries init_tables [c0; c1; c2] 0) as (-> & _ & _).
  unfold lookup_at at 1. change (0 + 3 <=? Z.of_nat (length [c0; c1; c2])) with true.
  cbv iota zeta. change (drop (Z.to_nat 0) [c0; c1; c2]) with [c0; c1; c2].
  rewrite Hhash, (entry_valid _ init_tables_ok), init_entry_decoded.
  cbn [or_else]. rewrite decoded_end by (simpl; lia). reflexivity.
Qed.

Lemma decode_data_accepts_hash_alias_witness :
  exists output,
    decode_data init_tables [xe0; x81; x81] = Returns output /\
    buf_data output = [x41].
Proof.
  apply (decode_data_accepts_hash_alias x41 xe0 x81 x81).
  - vm_compute. split; [discriminate|reflexivity].
  - vm_compute. reflexivity.
Defined.

(** ** The decoder on ASCII input *)

Lemma decoded_ascii (T : tables) (fuel : nat) (pre rest : list byte) (c : byte) :
  Zb c < 128 ->
  decoded T (S fuel) (pre ++ c :: rest) (Z.of_nat (length pre)) =
  (if load false (decode_table_valid T) (Zb c)
   then [load x00 (decode_table T) (Zb c)] else [])
  ++ decoded T fuel (pre ++ c :: rest) (Z.of_nat (length (pre ++ [c]))).
Proof.
  intros Hc. rewrite decoded_S.
  destruct (Z.ltb_spec (Z.of_nat (length pre)) (Z.of_nat (length (pre ++ c :: rest))))
    as [_|Hge]; [|rewrite length_app in Hge; simpl length in Hge; lia].
  assert (Ec : idx x00 (pre ++ c :: rest) (Z.of_nat (length pre)) = c).
  { rewrite <- (Z.add_0_r (Z.of_nat (length pre))), idx_app_r by lia. reflexivity. }
  assert (El : clamped_length (pre ++ c :: rest) (Z.of_nat (length pre)) = 1).
  { unfold clamped_length. rewrite Ec. unfold utf8_sequence_length.
    destruct (Z.ltb_spec (Zb c) 128); [|lia].
    destruct (Z.gtb_spec (Z.of_nat (length pre) + 1)
                (Z.of_nat (length (pre ++ c :: rest)))) as [Hgt|_]; [|reflexivity].
    rewrite length_app in Hgt. simpl length in Hgt. lia. }
  rewrite El. change (Z.to_nat 1) with 1%nat.
  destruct (match_lengths_retries T (pre ++ c :: rest) (Z.of_nat (length pre)))
    as (_ & _ & ->).
  unfold lookup_at.
  destruct (Z.leb_spec (Z.of_nat (length pre) + 1)
              (Z.of_nat (length (pre ++ c :: rest)))) as [_|Hgt];
    [|rewrite length_app in Hgt; simpl length in Hgt; lia].
  cbv zeta. rewrite drop_app_at.
  replace (utf8_hash (c :: rest) 1) with (Zb c).
  - rewrite (length_app pre). simpl length.
    replace (Z.of_nat (length pre + 1)) with (Z.of_nat (length pre) + 1) by lia.
    destruct (load false (decode_table_valid T) (Zb c)); reflexivity.
  - unfold utf8_hash, u16. change (1 =? 1) with true. cbv iota.
    rewrite idx_cons_0. pose proof (Zb_range c). rewrite Z.mod_small by lia.
    reflexivity.
Qed.

Lemma init_ascii_check_all : forallb (ascii_check init_tables) all_bytes = true.
Proof. vm_compute. reflexivity. Qed.

Lemma init_ascii_key (c : byte) :
  Zb c < 128 ->
  (if load false (decode_table_valid init_tables) (Zb c)
   then [load x00 (decode_table init_tables) (Zb c)] else []) =
  (if covered_by AsciiIdentity c then [c] else []).
Proof.
  intros Hc. pose proof (forall_bytes _ init_ascii_check_all c) as H.
  unfold ascii_check in H.
  destruct (Z.ltb_spec (Zb c) 128); [|lia]. cbn [implb] in H.
  apply andb_prop in H as [Hv Hd]. apply eqb_prop in Hv. rewrite Hv.
  destruct (covered_by AsciiIdentity c); [|reflexivity].
  cbn [implb] in Hd. apply Z.eqb_eq, Zb_inj in Hd. rewrite Hd. reflexivity.
Qed.

Lemma decoded_ascii_input (input pre : list byte) (fuel : nat) :
  Forall (fun c => Zb c < 128) input ->
  (length input <= fuel)%nat ->
  decoded init_tables fuel (pre ++ input) (Z.of_nat (length pre)) =
  List.filter (covered_by AsciiIdentity) input.
Proof.
  intros Hascii. revert pre fuel.
  induction Hascii as [|c input Hc _ IH]; intros pre fuel Hfuel.
  - apply decoded_end. rewrite app_nil_r. lia.
  - simpl length in Hfuel. destruct fuel as [|fuel]; [lia|].
    rewrite decoded_ascii, init_ascii_key by exact Hc.
    change (c :: input) with ([c] ++ input) at 1.
    rewrite (app_assoc pre), IH by lia.
    cbn [List.filter]. destruct (covered_by AsciiIdentity c); reflexivity.
Qed.

(** X16. On input made of bytes below 0x80 the decoder keeps the bytes
    that the ASCII identity rule covers, in their order, and drops all
    others: control characters, the space, the delete character and the
    punctuation that has a curated override. *)
Theorem decode_data_ascii_input (input : list byte) :
  Forall (fun c => Zb c < 128) input ->
  exists output,
    decode_data init_tables input = Returns output /\
    buf_data output = List.filter (covered_by AsciiIdentity) input.
Proof.
  intros Hascii. eexists. split; [apply decode_data_decoded|]. cbn [buf_data].
  apply (decoded_ascii_input input [] _ Hascii). lia.
Qed.

Lemma decode_data_ascii_input_witness :
  exists output,
    decode_data init_tables [x41; x20; x21; x42] = Returns output /\
    buf_data output = List.filter (covered_by AsciiIdentity) [x41; x20; x21; x42].
Proof.
  apply (decode_data_ascii_input [x41; x20; x21; x42]).
  repeat constructor; vm_compute; reflexivity.
Defined.

(** ** The shape of the sequences *)

Lemma init_sequence_check_all : forallb (sequence_check init_tables) all_bytes = true.
Proof. vm_compute. reflexivity. Qed.

(** X17. The encoder writes well-formed UTF-8 without control
    characters: its output is one well-formed character of one to three
    bytes per input byte, and none of its bytes is below 0x21 or is
    0x7F. *)
Theorem encode_data_utf8 (B : list byte) :
  exists encoded chars,
    encode_data init_tables B = Returns encoded /\
    buf_data encoded = concat chars /\
    length chars = length B /\
    Forall (fun s => utf8_char s = true) chars /\
    Forall (fun c => visible c = true) (buf_data encoded).
Proof.
  assert (Hseq : forall b, utf8_char (sequence_of init_tables b) = true /\
                           forallb visible (sequence_of init_tables b) = true).
  { intros b. apply andb_prop, (forall_bytes _ init_sequence_check_all b). }
  exists {| buf_data := encoding init_tables B;
            buf_capacity := buf_capacity (buffer_init (Z.of_nat (length B) * 3)) |}.
  exists (map (sequence_of init_tables) B).
  split; [apply (encode_data_eq _ init_tables_ok)|]. cbn [buf_data].
  split; [unfold encoding; apply flat_map_concat_map|].
  split; [apply length_map|]. split.
  - apply List.Forall_forall. intros s Hs. apply in_map_iff in Hs as (b & <- & _).
    apply Hseq.
  - induction B as [|b B IH]; [constructor|].
    rewrite encoding_cons. apply List.Forall_app. split; [|exact IH].
    apply List.Forall_forall. intros c Hc.
    destruct (Hseq b) as [_ Hv]. rewrite forallb_forall in Hv. apply Hv, Hc.
Qed.

(** ** Building one table entry *)

Lemma strlen_app_nul (s rest : list byte) :
  Forall (fun c => Zb c <> 0) s -> strlen (s ++ x00 :: rest) = Z.of_nat (length s).
Proof.
  induction 1 as [|c s Hc _ IH]; [reflexivity|].
  cbn [app strlen length]. destruct (Z.eqb_spec (Zb c) 0); [contradiction|].
  rewrite IH. lia.
Qed.

Lemma Zb_u8 (z : Z) : 0 <= z < 256 -> Zb (u8 z) = z.
Proof.
  intros Hz. unfold Zb, u8. rewrite Z.mod_small by exact Hz.
  destruct (Byte.of_N (Z.to_N z)) as [b|] eqn:E.
  - apply Byte.to_of_N in E. rewrite E. lia.
  - apply Byte.of_N_None_iff in E. lia.
Qed.

(** X18. [make_utf8] keeps a string of up to four bytes: the entry holds
    the bytes before the first NUL, padded with zeros to four bytes, and
    their number as its length; what follows the NUL is ignored. *)
Theorem make_utf8_string (s rest : list byte) :
  Forall (fun c => Zb c <> 0) s ->
  (length s <= 4)%nat ->
  make_utf8 (s ++ x00 :: rest) =
  {| utf8_bytes := s ++ replicate (4 - length s) x00;
     utf8_length := Z.of_nat (length s) |}.
Proof.
  intros Hs Hlen. unfold make_utf8, memcpy.
  rewrite strlen_app_nul by exact Hs. rewrite Zb_u8 by lia.
  rewrite Nat2Z.id, take_app_length. change (Z.to_nat MAX_UTF8_BYTES) with 4%nat.
  rewrite drop_replicate. reflexivity.
Qed.

Lemma make_utf8_string_witness :
  make_utf8 ([xe2; x88; x85] ++ x00 :: [x41]) =
  {| utf8_bytes := [xe2; x88; x85] ++ replicate (4 - 3) x00; utf8_length := 3 |}.
Proof.
  apply (make_utf8_string [xe2; x88; x85] [x41]).
  - repeat constructor; discriminate.
  - simpl. lia.
Defined.

(** ** Reading the input *)

Lemma read_loop_returns (chunks : list (list byte)) (buf : buffer_t) :
  buf_size buf < buf_capacity buf ->
  exists buf',
    read_loop chunks buf = Returns buf' /\
    buf_data buf' = buf_data buf ++ concat (chunks_read chunks) /\
    buf_size buf' < buf_capacity buf'.
Proof.
  revert buf. induction chunks as [|temp chunks IH]; intros buf Hwf.
  - exists buf. simpl. rewrite app_nil_r. auto.
  - cbn [read_loop chunks_read].
    destruct temp as [|c temp].
    + exists buf. simpl. rewrite app_nil_r. auto.
    + destruct (Z.gtb_spec (Z.of_nat (length (c :: temp))) 0) as [_|Hle];
        [|simpl length in Hle; lia].
      cbn [nonempty]. unfold read_chunk.
      set (capacity := if buf_size buf + Z.of_nat (length (c :: temp)) >=? buf_capacity buf
                       then (buf_size buf + Z.of_nat (length (c :: temp))) * 2
                       else buf_capacity buf).
      assert (Hcap : buf_size buf + Z.of_nat (length (c :: temp)) < capacity).
      { unfold capacity, buf_size in *. simpl length.
        destruct (Z.geb_spec (Z.of_nat (length (buf_data buf))
                              + Z.of_nat (S (length temp))) (buf_capacity buf)); lia. }
      destruct (Z.gtb_spec (buf_size buf + Z.of_nat (length (c :: temp))) capacity);
        [lia|].
      rewrite bind_returns.
      destruct (IH {| buf_data := buf_data buf ++ c :: temp; buf_capacity := capacity |})
        as (buf' & Hr & Hd & Hw).
      { unfold buf_size in *. cbn [buf_data buf_capacity].
        rewrite length_app. lia. }
      exists buf'. split; [exact Hr|]. split; [|exact Hw].
      rewrite Hd. cbn [buf_data concat]. rewrite <- app_assoc. reflexivity.
Qed.

(** X19. [read_file] never writes past its buffer, whatever the initial
    capacity and however the stream cuts its data: it returns a buffer
    that holds the chunks read, in order, up to the first empty one, and
    whose size is below its capacity. *)
Theorem read_file_returns (initial_capacity : Z) (chunks : list (list byte)) :
  0 <= initial_capacity ->
  exists buf,
    read_file initial_capacity chunks = Returns buf /\
    buf_data buf = concat (chunks_read chunks) /\
    buf_size buf < buf_capacity buf.
Proof.
  intros Hcap. unfold read_file.
  destruct (read_loop_returns chunks (buffer_init initial_capacity))
    as (buf & Hr & Hd & Hw).
  - pose proof (buffer_init_capacity initial_capacity Hcap).
    unfold buf_size, buffer_init, INITIAL_BUFFER_SIZE in *. cbn [buf_data buf_capacity] in *.
    simpl length. destruct (Z.eqb_spec initial_capacity 0); lia.
  - exists buf. rewrite Hd. auto.
Qed.

Lemma read_file_returns_witness :
  exists buf,
    read_file 1 [[x41; x42]; [x43]; []; [x44]] = Returns buf /\
    buf_data buf = concat (chunks_read [[x41; x42]; [x43]; []; [x44]]) /\
    buf_size buf < buf_capacity buf.
Proof. apply (read_file_returns 1 [[x41; x42]; [x43]; []; [x44]]). lia. Defined.

(** ** Group parameters of zero *)

(** X20. A group size of 0, or 0 groups per line, makes the formatter
    divide by zero in its size estimate: it traps on every input buffer
    and formats nothing. *)
Theorem format_output_zero_traps (input : buffer_t) (g n : Z) :
  g = 0 \/ n = 0 -> format_output input g n = Traps.
Proof.
  intros [-> | ->]; unfold format_output.
  - reflexivity.
  - rewrite Z.mul_0_r. unfold size_div.
    destruct (size_of_int g =? 0); reflexivity.
Qed.

Lemma format_output_zero_traps_witness :
  format_output {| buf_data := [x41]; buf_capacity := 1 |} 8 0 = Traps.
Proof.
  apply (format_output_zero_traps {| buf_data := [x41]; buf_capacity := 1 |} 8 0).
  right. reflexivity.
Defined.

(** ** The order of the lookups *)

